(** * Recommendation inference service (backend/app.py)

    A shallow embedding of the artifact loader [load_all_artifacts] and of the
    two request handlers [get_cf_recommendations] and
    [get_cbf_recommendations], followed by the properties of the service.

    Conventions of the embedding.
    - A Python [int] is a [Z]; a [str] is a [string].
    - A numpy array is a two-dimensional array of rationals: every finite
      value of a floating-point or integer dtype is one, and numpy orders them
      as rationals.  The decimal literals used below stand for the rationals
      they denote, whose order is the order of the floats.
    - [ndarray.dot] is an argument of the CF handler: numpy computes it in the
      dtype of the arrays, rounding or wrapping as the dtype does, so nothing
      is assumed of its values beyond the two contracts [dot_shapes] (when it
      raises, how long its result is) and [dot_exact] (it is exact on small
      integers).  [exact_dot], the dot product over the rationals, is one
      function that meets both.
    - The module-level globals of app.py are a record [globals], threaded
      through a state-and-exception monad [py]: an exception keeps the
      assignments made before it was raised, as in Python.
    - [np.argsort] is an argument of the handlers together with its
      documented contract [argsort_spec] (a permutation of the positions,
      ascending by value); how it orders equal values is left open. *)

From Stdlib Require Import QArith Qabs.
From stdpp Require Import gmap strings list sorting.

Local Open Scope Z_scope.

(** ** Python and numpy primitives *)

Module Py.

(** Exceptions that the modelled code can meet.  [HTTPException] carries the
    status code and the detail message given by app.py. *)
Inductive exn : Type :=
  | KeyError
  | IndexError
  | TypeError
  | ValueError
  | OSError
  | UnpicklingError
  | HTTPException (status_code : Z) (detail : string).

(** Position of index [i] in a sequence of length [n]: Python accepts
    [-n <= i < n] and counts negative indices from the end. *)
Definition normalize_index (n : nat) (i : Z) : option nat :=
  if decide (0 ≤ i < Z.of_nat n) then Some (Z.to_nat i)
  else if decide (- Z.of_nat n ≤ i < 0) then Some (Z.to_nat (Z.of_nat n + i))
  else None.

(** Bound of a slice with step 1: a negative bound counts from the end, and
    both bounds are clamped to [0..n]. *)
Definition slice_bound (n : nat) (i : Z) : nat :=
  Z.to_nat (if decide (i < 0) then Z.max (Z.of_nat n + i) 0
            else Z.min i (Z.of_nat n)).

(** [l[start:stop]]; an omitted bound is [None]. *)
Definition py_slice {A} (start stop : option Z) (l : list A) : list A :=
  let n := length l in
  let a := from_option (slice_bound n) 0%nat start in
  let b := from_option (slice_bound n) n stop in
  take (b - a) (drop a l).

(** A two-dimensional array of shape [(length rows, shape1)]. *)
Record ndarray : Type := NDArray { shape1 : nat; rows : list (list Q) }.

Definition shape0 (a : ndarray) : nat := length (rows a).

(** Every row of a numpy array has the length its shape announces. *)
Definition wf_ndarray (a : ndarray) : Prop :=
  Forall (λ r, length r = shape1 a) (rows a).

(** [a[i]] for an integer [i]: row [i] of the array. *)
Definition getitem_row (a : ndarray) (i : Z) : option (list Q) :=
  j ← normalize_index (shape0 a) i; rows a !! j.

Definition sumQ (l : list Q) : Q := foldl Qplus 0%Q l.

Definition column (a : ndarray) (j : nat) : list Q :=
  (λ r, nth j r 0%Q) <$> rows a.

(** The dot product of a vector [v] and a matrix [a] in exact arithmetic: one
    entry per column of [a]; [None] when the shapes are not aligned. *)
Definition exact_dot (v : list Q) (a : ndarray) : option (list Q) :=
  if decide (length v = shape0 a)
  then Some ((λ j, sumQ (zip_with Qmult v (column a j))) <$> seq 0 (shape1 a))
  else None.

(** Contract of [v.dot(a)], shapes: numpy raises ValueError when the length
    of [v] is not the number of rows of [a], and otherwise returns one entry
    per column of [a], whatever the dtype. *)
Definition dot_shapes (dot : list Q → ndarray → option (list Q)) : Prop :=
  ∀ v a, if decide (length v = shape0 a)
         then ∃ s, dot v a = Some s ∧ length s = shape1 a
         else dot v a = None.

Definition is_integer (q : Q) : Prop := Qden q = 1%positive.

(** All entries are integers, and in every column the absolute values of
    the products add up to less than 2^24: in a 32- or 64-bit floating-point
    or integer dtype every product and every partial sum, in any order, is
    then represented exactly. *)
Definition exactly_representable (v : list Q) (a : ndarray) : Prop :=
  Forall is_integer v ∧ Forall (Forall is_integer) (rows a) ∧
  ∀ j, (j < shape1 a)%nat →
       (sumQ (zip_with (λ x y, Qabs (x * y)) v (column a j)) < 16777216)%Q.

(** Contract of [v.dot(a)], values: where no rounding and no overflow can
    occur, the result is the exact dot product. *)
Definition dot_exact (dot : list Q → ndarray → option (list Q)) : Prop :=
  ∀ v a, exactly_representable v a → dot v a = exact_dot v a.

(** The order [np.argsort] sorts positions by. *)
Definition score_le (s : list Q) (i j : nat) : Prop :=
  (nth i s 0 <= nth j s 0)%Q.

#[global] Instance score_le_dec (s : list Q) : RelDecision (score_le s).
Proof. intros i j. unfold score_le, Qle. apply _. Defined.

(** Contract of [np.argsort]: the positions of the array, in ascending order
    of the values they hold. *)
Definition argsort_spec (argsort : list Q → list nat) : Prop :=
  ∀ s, argsort s ≡ₚ seq 0 (length s) ∧ Sorted (score_le s) (argsort s).

(** One function that meets the contract: merge sort of the positions. *)
Definition argsort_merge (s : list Q) : list nat :=
  merge_sort (score_le s) (seq 0 (length s)).

End Py.
Import Py.

(** ** Module state and the monad of the handlers *)

(** The two pickled dictionaries.  A field is [None] when the dictionary has
    no such key.  [users] keeps the iteration order of the Python dict. *)
Record cf_mappers : Type := CfMappers {
  users : option (list (Z * string));
  items : option (gmap nat string);
  user_id_to_index : option (gmap string Z)
}.

Record cbf_mappers : Type := CbfMappers {
  item_id_to_index : option (gmap string Z);
  index_to_item_id : option (gmap nat string)
}.

(** The globals of app.py; [None] is Python's [None]. *)
Record globals : Type := Globals {
  CF_USER_FACTORS : option ndarray;
  CF_ITEM_FACTORS : option ndarray;
  CF_MAPPERS : option cf_mappers;
  CBF_SIM_MATRIX : option ndarray;
  CBF_MAPPERS : option cbf_mappers
}.

(** State of the module before [load_all_artifacts] runs. *)
Definition globals0 : globals := Globals None None None None None.

Definition set_CF_USER_FACTORS (v : option ndarray) (g : globals) : globals :=
  Globals v (CF_ITEM_FACTORS g) (CF_MAPPERS g) (CBF_SIM_MATRIX g) (CBF_MAPPERS g).
Definition set_CF_ITEM_FACTORS (v : option ndarray) (g : globals) : globals :=
  Globals (CF_USER_FACTORS g) v (CF_MAPPERS g) (CBF_SIM_MATRIX g) (CBF_MAPPERS g).
Definition set_CF_MAPPERS (v : option cf_mappers) (g : globals) : globals :=
  Globals (CF_USER_FACTORS g) (CF_ITEM_FACTORS g) v (CBF_SIM_MATRIX g) (CBF_MAPPERS g).
Definition set_CBF_SIM_MATRIX (v : option ndarray) (g : globals) : globals :=
  Globals (CF_USER_FACTORS g) (CF_ITEM_FACTORS g) (CF_MAPPERS g) v (CBF_MAPPERS g).
Definition set_CBF_MAPPERS (v : option cbf_mappers) (g : globals) : globals :=
  Globals (CF_USER_FACTORS g) (CF_ITEM_FACTORS g) (CF_MAPPERS g) (CBF_SIM_MATRIX g) v.

(** A computation reads and writes the globals and returns a value or raises;
    the globals survive a raise. *)
Definition py (A : Type) : Type := globals → (exn + A) * globals.

Definition py_ret {A} (a : A) : py A := λ g, (inr a, g).

Definition py_bind {A B} (f : A → py B) (m : py A) : py B :=
  λ g, match m g with
       | (inl e, g') => (inl e, g')
       | (inr a, g') => f a g'
       end.

#[global] Instance py_mret : MRet py := @py_ret.
#[global] Instance py_mbind : MBind py := @py_bind.

Definition raise {A} (e : exn) : py A := λ g, (inl e, g).

(** [try: m except Exception as e: h e]. *)
Definition try_except {A} (m : py A) (h : exn → py A) : py A :=
  λ g, match m g with
       | (inl e, g') => h e g'
       | (inr a, g') => (inr a, g')
       end.

Definition read {A} (field : globals → A) : py A := λ g, (inr (field g), g).

Definition assign (set : globals → globals) : py unit := λ g, (inr tt, set g).

(** Value of an optional result, raising [e] when there is none. *)
Definition or_raise {A} (e : exn) (o : option A) : py A :=
  match o with Some a => mret a | None => raise e end.

(** Outcome of a file read: the exception it raises or its content. *)
Definition from_file {A} (r : exn + A) : py A :=
  match r with inl e => raise e | inr a => mret a end.

(** The object a global holds; an operation applied to [None] raises
    TypeError. *)
Definition the {A} (field : globals → option A) : py A :=
  read field ≫= or_raise TypeError.

(** [CF_MAPPERS[key]] and [CBF_MAPPERS[key]]. *)
Definition CF_MAPPERS_getitem {A} (key : cf_mappers → option A) : py A :=
  the CF_MAPPERS ≫= λ m, or_raise KeyError (key m).

Definition CBF_MAPPERS_getitem {A} (key : cbf_mappers → option A) : py A :=
  the CBF_MAPPERS ≫= λ m, or_raise KeyError (key m).

(** ** The artifact loader *)

(** What each read of [load_all_artifacts] finds on disk: the exception the
    read raises (missing file, corrupt pickle, ...) or the content. *)
Record artifact_files : Type := ArtifactFiles {
  mappers_pkl : exn + cf_mappers;
  user_factors_npy : exn + ndarray;
  item_factors_npy : exn + ndarray;
  cbf_mappers_pkl : exn + cbf_mappers;
  cbf_similarity_matrix_npy : exn + ndarray
}.

(** [{v: k for k, v in users.items()}]: a later entry replaces an earlier one
    with the same value. *)
Definition invert_users (us : list (Z * string)) : gmap string Z :=
  foldl (λ acc kv, <[kv.2 := kv.1]> acc) ∅ us.

(** Body of the first [try] of [load_all_artifacts]. *)
Definition load_cf (fs : artifact_files) : py unit :=
  m ← from_file (mappers_pkl fs);
  assign (set_CF_MAPPERS (Some m));;
  uf ← from_file (user_factors_npy fs);
  assign (set_CF_USER_FACTORS (Some uf));;
  itf ← from_file (item_factors_npy fs);
  assign (set_CF_ITEM_FACTORS (Some itf));;
  us ← CF_MAPPERS_getitem users;
  mp ← the CF_MAPPERS;
  assign (set_CF_MAPPERS
            (Some (CfMappers (users mp) (items mp) (Some (invert_users us))))).

(** Body of the second [try] of [load_all_artifacts]. *)
Definition load_cbf (fs : artifact_files) : py unit :=
  m ← from_file (cbf_mappers_pkl fs);
  assign (set_CBF_MAPPERS (Some m));;
  sm ← from_file (cbf_similarity_matrix_npy fs);
  assign (set_CBF_SIM_MATRIX (Some sm)).

(** Both handlers of the loader print a warning and go on. *)
Definition load_all_artifacts (fs : artifact_files) : py unit :=
  try_except (load_cf fs) (λ _, mret tt);;
  try_except (load_cbf fs) (λ _, mret tt).

(** ** The two endpoints *)

Section Endpoints.

Variable argsort : list Q → list nat.
Variable dot : list Q → ndarray → option (list Q).

(** [user_vector.dot(CF_ITEM_FACTORS)]; when the global is [None] numpy
    multiplies the vector by the object [None], which raises TypeError as soon
    as the vector has an entry. *)
Definition user_vector_dot (user_vector : list Q) (m : option ndarray)
  : py (list Q) :=
  match m with
  | Some item_factors => or_raise ValueError (dot user_vector item_factors)
  | None => if decide (user_vector = []) then mret [] else raise TypeError
  end.

Definition get_cf_recommendations (user_id : string) (k : Z)
  : py (string * list string) :=
  uf ← read CF_USER_FACTORS;
  mp ← read CF_MAPPERS;
  match uf, mp with
  | Some _, Some _ =>
    u2i ← CF_MAPPERS_getitem user_id_to_index;
    match u2i !! user_id with
    | None =>
      raise (HTTPException 404 ("User " +:+ user_id +:+ " not found (cold start)."))
    | Some user_index =>
      try_except
        (user_factors ← the CF_USER_FACTORS;
         user_vector ← or_raise IndexError (getitem_row user_factors user_index);
         scores ← read CF_ITEM_FACTORS ≫= user_vector_dot user_vector;
         let top_k_indices :=
           reverse (py_slice (Some (- k)) None (argsort scores)) in
         recommendations ←
           mapM (λ i, its ← CF_MAPPERS_getitem items; or_raise KeyError (its !! i))
                top_k_indices;
         mret (user_id, recommendations))
        (λ _, raise (HTTPException 500 "Error during CF inference."))
    end
  | _, _ => raise (HTTPException 500 "CF model not loaded.")
  end.

Definition get_cbf_recommendations (item_id : string) (k : Z)
  : py (string * list string) :=
  sm ← read CBF_SIM_MATRIX;
  mp ← read CBF_MAPPERS;
  match sm, mp with
  | Some _, Some _ =>
    id2i ← CBF_MAPPERS_getitem item_id_to_index;
    match id2i !! item_id with
    | None => raise (HTTPException 404 ("Item " +:+ item_id +:+ " not found."))
    | Some item_index =>
      try_except
        (sim_matrix ← the CBF_SIM_MATRIX;
         scores ← or_raise IndexError (getitem_row sim_matrix item_index);
         let top_indices :=
           py_slice (Some 1) (Some (k + 1)) (reverse (argsort scores)) in
         recommendations ←
           mapM (λ i, ids ← CBF_MAPPERS_getitem index_to_item_id;
                      or_raise KeyError (ids !! i))
                top_indices;
         mret (item_id, recommendations))
        (λ _, raise (HTTPException 500 "Error during CBF inference."))
    end
  | _, _ => raise (HTTPException 500 "CBF model not loaded.")
  end.

End Endpoints.

(** ** Failure taxonomy *)

Inductive failure : Type := NotReady | NotFound | InternalError | Unhandled.

(** How a raised exception reaches the caller: the three HTTP errors app.py
    raises itself, or an exception that escapes the handler. *)
Definition failure_of (e : exn) : failure :=
  match e with
  | HTTPException status detail =>
    if decide (status = 404) then NotFound
    else if decide (detail = "CF model not loaded." ∨ detail = "CBF model not loaded.")
    then NotReady
    else InternalError
  | _ => Unhandled
  end.

(** A handler run fails with [f]. *)
Definition fails_with {A} (f : failure) (r : (exn + A) * globals) : Prop :=
  ∃ e, r.1 = inl e ∧ failure_of e = f.

(** ** The scenario of the specification *)

Module Scenario.

Definition user_factors : ndarray := NDArray 2 [[1; 0]; [0; 1]]%Q.
Definition item_factors : ndarray := NDArray 3 [[2; 0; 1]; [0; 3; 1]]%Q.

Definition similarity_matrix : ndarray :=
  NDArray 3 [[1; 8 # 10; 1 # 10]; [8 # 10; 1; 3 # 10]; [1 # 10; 3 # 10; 1]]%Q.

Definition item_ids : gmap nat string :=
  <[0%nat := "item0"]> (<[1%nat := "item1"]> (<[2%nat := "item2"]> ∅)).

(** The mapping the loader derives from the [users] of [files] below. *)
Definition user_indices : gmap string Z := invert_users [(0, "u0"); (1, "u1")].

Definition item_indices : gmap string Z :=
  <["item0" := 0]> (<["item1" := 1]> (<["item2" := 2]> ∅)).

Definition files : artifact_files := {|
  mappers_pkl := inr (CfMappers (Some [(0, "u0"); (1, "u1")]) (Some item_ids) None);
  user_factors_npy := inr user_factors;
  item_factors_npy := inr item_factors;
  cbf_mappers_pkl := inr (CbfMappers (Some item_indices) (Some item_ids));
  cbf_similarity_matrix_npy := inr similarity_matrix
|}.

(** The globals once the loader has run on [files]. *)
Definition loaded : globals := (load_all_artifacts files globals0).2.

(** The same files with [item_factors.npy] missing. *)
Definition files_without_item_factors : artifact_files := {|
  mappers_pkl := mappers_pkl files;
  user_factors_npy := user_factors_npy files;
  item_factors_npy := inl OSError;
  cbf_mappers_pkl := cbf_mappers_pkl files;
  cbf_similarity_matrix_npy := cbf_similarity_matrix_npy files
|}.

(** Items 0 and 1 as similar to each other as to themselves. *)
Definition tied_similarity_matrix : ndarray :=
  NDArray 3 [[1; 1; 1 # 10]; [1; 1; 3 # 10]; [1 # 10; 3 # 10; 1]]%Q.

Definition tied_files : artifact_files := {|
  mappers_pkl := mappers_pkl files;
  user_factors_npy := user_factors_npy files;
  item_factors_npy := item_factors_npy files;
  cbf_mappers_pkl := cbf_mappers_pkl files;
  cbf_similarity_matrix_npy := inr tied_similarity_matrix
|}.

(** The same again, for a pickle that already carries the derived mapping. *)
Definition files_with_index_without_item_factors : artifact_files := {|
  mappers_pkl :=
    inr (CfMappers (Some [(0, "u0"); (1, "u1")]) (Some item_ids) (Some user_indices));
  user_factors_npy := user_factors_npy files;
  item_factors_npy := inl OSError;
  cbf_mappers_pkl := cbf_mappers_pkl files;
  cbf_similarity_matrix_npy := cbf_similarity_matrix_npy files
|}.

(** Mappings that have drifted from the matrices: user index 7 and item index
    9 have no row, user index -1 counts from the end, and position 0 of the
    CF items and position 2 of the CBF items have no id. *)
Definition stale_item_ids : gmap nat string :=
  <[1%nat := "item1"]> (<[2%nat := "item2"]> ∅).

Definition stale_cbf_item_ids : gmap nat string :=
  <[0%nat := "item0"]> (<[1%nat := "item1"]> ∅).

Definition stale_files : artifact_files := {|
  mappers_pkl :=
    inr (CfMappers (Some [(0, "u0"); (1, "u1"); (-1, "last"); (7, "u7")])
                   (Some stale_item_ids) None);
  user_factors_npy := user_factors_npy files;
  item_factors_npy := item_factors_npy files;
  cbf_mappers_pkl :=
    inr (CbfMappers (Some (<["item0" := 0]> (<["item9" := 9]> ∅)))
                    (Some stale_cbf_item_ids));
  cbf_similarity_matrix_npy := cbf_similarity_matrix_npy files
|}.

Definition stale_loaded : globals := (load_all_artifacts stale_files globals0).2.

(** A CF mapping in which positions 0 and 2 carry the same item id. *)
Definition shared_item_ids : gmap nat string :=
  <[0%nat := "a"]> (<[1%nat := "b"]> (<[2%nat := "a"]> ∅)).

Definition shared_id_files : artifact_files := {|
  mappers_pkl :=
    inr (CfMappers (Some [(0, "u0"); (1, "u1")]) (Some shared_item_ids) None);
  user_factors_npy := user_factors_npy files;
  item_factors_npy := item_factors_npy files;
  cbf_mappers_pkl := cbf_mappers_pkl files;
  cbf_similarity_matrix_npy := cbf_similarity_matrix_npy files
|}.

Definition shared_id_loaded : globals :=
  (load_all_artifacts shared_id_files globals0).2.

End Scenario.

(** ** Loaded bundles and the invariants of the data model *)

(** The globals hold a complete CF bundle: both factor matrices, and a
    mapping dictionary with the keys the handler uses. *)
Record cf_bundle (g : globals) (UF IF : ndarray)
    (u2i : gmap string Z) (its : gmap nat string) : Prop := {
  cf_user_factors : CF_USER_FACTORS g = Some UF;
  cf_item_factors : CF_ITEM_FACTORS g = Some IF;
  cf_mapping : ∃ mp, CF_MAPPERS g = Some mp ∧
                     user_id_to_index mp = Some u2i ∧ items mp = Some its
}.

(** The index-to-id mapping gives distinct positions distinct ids. *)
Definition ids_injective (ids : gmap nat string) : Prop :=
  ∀ i j r, ids !! i = Some r → ids !! j = Some r → i = j.

(** Shapes and mappings of the CF bundle agree: a user row per mapped user,
    a factor per row of the item matrix, an id per item column. *)
Record cf_invariant (UF IF : ndarray)
    (u2i : gmap string Z) (its : gmap nat string) : Prop := {
  cf_uf_wf : wf_ndarray UF;
  cf_factors : shape1 UF = shape0 IF;
  cf_user_rows : ∀ uid ui, u2i !! uid = Some ui → 0 ≤ ui < Z.of_nat (shape0 UF);
  cf_item_ids : ∀ i, (i < shape1 IF)%nat → is_Some (its !! i)
}.

Record cbf_bundle (g : globals) (SM : ndarray)
    (id2i : gmap string Z) (ids : gmap nat string) : Prop := {
  cbf_sim_matrix : CBF_SIM_MATRIX g = Some SM;
  cbf_mapping : ∃ mp, CBF_MAPPERS g = Some mp ∧
                      item_id_to_index mp = Some id2i ∧
                      index_to_item_id mp = Some ids
}.

(** The similarity matrix has a row per mapped item and an id per column. *)
Record cbf_invariant (SM : ndarray)
    (id2i : gmap string Z) (ids : gmap nat string) : Prop := {
  cbf_sm_wf : wf_ndarray SM;
  cbf_item_rows : ∀ id i, id2i !! id = Some i → 0 ≤ i < Z.of_nat (shape0 SM);
  cbf_item_ids : ∀ i, (i < shape1 SM)%nat → is_Some (ids !! i)
}.

(** [recs] are the ids of the positions [idxs], in the same order. *)
Definition ids_of (ids : gmap nat string) (idxs : list nat) (recs : list string)
  : Prop :=
  Forall2 (λ i r, ids !! i = Some r) idxs recs.

(** Positions in non-increasing order of the values of [s]. *)
Definition descending (s : list Q) (idxs : list nat) : Prop :=
  StronglySorted (flip (score_le s)) idxs.

(** ** Requests *)

Inductive request : Type :=
  | CfRequest (user_id : string) (k : Z)
  | CbfRequest (item_id : string) (k : Z).

(** The endpoint a request is routed to. *)
Definition handle (argsort : list Q → list nat)
    (dot : list Q → ndarray → option (list Q)) (r : request)
  : py (string * list string) :=
  match r with
  | CfRequest user_id k => get_cf_recommendations argsort dot user_id k
  | CbfRequest item_id k => get_cbf_recommendations argsort item_id k
  end.

(** The globals after a sequence of requests has been handled. *)
Fixpoint serve (argsort : list Q → list nat)
    (dot : list Q → ndarray → option (list Q)) (rs : list request) (g : globals)
  : globals :=
  match rs with
  | [] => g
  | r :: rs => serve argsort dot rs (handle argsort dot r g).2
  end.

(** ** Failed loads *)

Definition read_fails {A} (r : exn + A) : Prop := ∃ e, r = inl e.

(** Some step of the first [try] of the loader raises: one of the three
    reads, or the lookup of the key [users]. *)
Definition cf_load_fails (fs : artifact_files) : Prop :=
  read_fails (mappers_pkl fs) ∨ read_fails (user_factors_npy fs) ∨
  read_fails (item_factors_npy fs) ∨
  ∃ m, mappers_pkl fs = inr m ∧ users m = None.

(** Some step of the second [try] of the loader raises. *)
Definition cbf_load_fails (fs : artifact_files) : Prop :=
  read_fails (cbf_mappers_pkl fs) ∨ read_fails (cbf_similarity_matrix_npy fs).

(** ** Runs of a computation *)

(** [m] run in [g] returns [a] and leaves the globals as they were. *)
Definition returns {A} (m : py A) (g : globals) (a : A) : Prop :=
  m g = (inr a, g).

(** [m] run in [g] raises [e] and leaves the globals as they were. *)
Definition raises {A} (m : py A) (g : globals) (e : exn) : Prop :=
  m g = (inl e, g).

(** [m] never changes the globals, whatever it returns or raises. *)
Definition preserves {A} (m : py A) : Prop := ∀ g, (m g).2 = g.

(** ** Python slices *)

Lemma slice_last {A} (l : list A) (k : Z) :
  0 < k → py_slice (Some (- k)) None l = drop (length l - Z.to_nat k) l.
Proof.
  intros Hk. unfold py_slice, slice_bound; simpl.
  rewrite decide_True by lia.
  replace (Z.to_nat (Z.max (Z.of_nat (length l) + - k) 0))
    with (length l - Z.to_nat k)%nat by lia.
  apply take_ge. rewrite length_drop. lia.
Qed.

Lemma slice_last_zero {A} (l : list A) : py_slice (Some (- 0)) None l = l.
Proof.
  unfold py_slice, slice_bound; simpl.
  replace (Z.to_nat (Z.min (- 0) (Z.of_nat (length l)))) with 0%nat by lia.
  rewrite drop_0. apply take_ge. lia.
Qed.

Lemma slice_skip_first {A} (l : list A) (k : Z) :
  0 ≤ k → py_slice (Some 1) (Some (k + 1)) l = take (Z.to_nat k) (drop 1 l).
Proof.
  intros Hk. unfold py_slice, slice_bound; cbn [from_option].
  repeat case_decide; try lia.
  destruct l as [|x l].
  { cbn [length drop]. by rewrite ?drop_nil, ?take_nil. }
  cbn [length].
  replace (Z.to_nat (Z.min 1 (Z.of_nat (S (length l))))) with 1%nat by lia.
  cbn [drop]. rewrite drop_0.
  destruct (decide (Z.to_nat k ≤ length l)%nat).
  - f_equal. lia.
  - rewrite !take_ge by lia. done.
Qed.

(** ** Contract of argsort *)

#[global] Instance score_le_trans s : Transitive (score_le s).
Proof. intros i j k. unfold score_le. apply Qle_trans. Qed.

#[global] Instance score_le_total s : Total (score_le s).
Proof.
  intros i j. unfold score_le.
  destruct (Qlt_le_dec (nth i s 0%Q) (nth j s 0%Q)) as [H|H]; [left|right]; [|done].
  by apply Qlt_le_weak.
Qed.

Lemma argsort_merge_spec : argsort_spec argsort_merge.
Proof.
  intros s. unfold argsort_merge. split.
  - apply merge_sort_Permutation.
  - apply (Sorted_merge_sort (score_le s)).
Qed.

Section ArgsortFacts.

Context (argsort : list Q → list nat) (Hargsort : argsort_spec argsort).

Lemma argsort_length s : length (argsort s) = length s.
Proof.
  destruct (Hargsort s) as [Hp _].
  by rewrite (Permutation_length Hp), length_seq.
Qed.

Lemma argsort_NoDup s : NoDup (argsort s).
Proof.
  destruct (Hargsort s) as [Hp _]. rewrite Hp. apply NoDup_seq.
Qed.

Lemma argsort_bound s i : i ∈ argsort s → (i < length s)%nat.
Proof.
  destruct (Hargsort s) as [Hp _]. rewrite Hp, elem_of_seq. lia.
Qed.

Lemma argsort_descending s : descending s (reverse (argsort s)).
Proof.
  destruct (Hargsort s) as [_ Hs].
  apply Sorted_StronglySorted; [apply _|].
  by apply Sorted_reverse.
Qed.

(** Values that differ pairwise leave one order only. *)
Lemma argsort_unique s :
  (∀ i j, (i < length s)%nat → (j < length s)%nat →
          (nth i s 0 == nth j s 0)%Q → i = j) →
  argsort s = argsort_merge s.
Proof.
  intros Hdiff.
  destruct (Hargsort s) as [Hp Hs], (argsort_merge_spec s) as [Hp' Hs'].
  apply (Sorted_unique_strong (score_le s)); [|done|done|by rewrite Hp, Hp'].
  intros i j Hi Hj Hij Hji. apply Hdiff.
  - by apply argsort_bound.
  - rewrite Hp', elem_of_seq in Hj. lia.
  - by apply Qle_antisym.
Qed.

End ArgsortFacts.

(** ** Rules for runs *)

Section Runs.

Context {A B : Type}.
Implicit Types (m : py A) (f : A → py B) (g : globals).

Lemma returns_ret g (a : A) : returns (mret a) g a.
Proof. done. Qed.

Lemma returns_read (field : globals → A) g : returns (read field) g (field g).
Proof. done. Qed.

Lemma returns_or_raise e (o : option A) g a : o = Some a → returns (or_raise e o) g a.
Proof. by intros ->. Qed.

Lemma raises_raise g e : raises (raise (A:=A) e) g e.
Proof. done. Qed.

Lemma raises_or_raise e g : raises (or_raise (A:=A) e None) g e.
Proof. done. Qed.

Lemma returns_bind m f g a b :
  returns m g a → returns (f a) g b → returns (m ≫= f) g b.
Proof.
  unfold returns, mbind, py_mbind, py_bind. by intros -> ->.
Qed.

Lemma raises_bind m f g e : raises m g e → raises (m ≫= f) g e.
Proof.
  unfold raises, mbind, py_mbind, py_bind. by intros ->.
Qed.

Lemma raises_bind_after m f g a e :
  returns m g a → raises (f a) g e → raises (m ≫= f) g e.
Proof.
  unfold returns, raises, mbind, py_mbind, py_bind. by intros -> ->.
Qed.

Lemma returns_try_except m (h : exn → py A) g a :
  returns m g a → returns (try_except m h) g a.
Proof. unfold returns, try_except. by intros ->. Qed.

Lemma raises_try_except m (h : exn → py A) g e e' :
  raises m g e → raises (h e) g e' → raises (try_except m h) g e'.
Proof. unfold raises, try_except. by intros -> ->. Qed.

Lemma preserves_ret (a : A) : preserves (mret a : py A).
Proof. done. Qed.

Lemma preserves_raise e : preserves (raise (A:=A) e).
Proof. done. Qed.

Lemma preserves_read (field : globals → A) : preserves (read field).
Proof. done. Qed.

Lemma preserves_or_raise e (o : option A) : preserves (or_raise e o).
Proof. by destruct o. Qed.

Lemma preserves_bind m f :
  preserves m → (∀ a, preserves (f a)) → preserves (m ≫= f).
Proof.
  intros Hm Hf g. unfold mbind, py_mbind, py_bind.
  specialize (Hm g). destruct (m g) as [[e|a] g']; simpl in *; subst; [done|].
  apply Hf.
Qed.

Lemma preserves_try_except m (h : exn → py A) :
  preserves m → (∀ e, preserves (h e)) → preserves (try_except m h).
Proof.
  intros Hm Hh g. unfold try_except.
  specialize (Hm g). destruct (m g) as [[e|a] g']; simpl in *; subst; [|done].
  apply Hh.
Qed.

End Runs.

Lemma returns_the {A} (field : globals → option A) g a :
  field g = Some a → returns (the field) g a.
Proof.
  intros H. eapply returns_bind; [apply returns_read|]. by apply returns_or_raise.
Qed.

Lemma preserves_the {A} (field : globals → option A) : preserves (the field).
Proof.
  apply preserves_bind; [apply preserves_read|]. intros; apply preserves_or_raise.
Qed.

Lemma returns_CF_MAPPERS_getitem {A} (key : cf_mappers → option A) g mp a :
  CF_MAPPERS g = Some mp → key mp = Some a → returns (CF_MAPPERS_getitem key) g a.
Proof.
  intros Hm Hk. eapply returns_bind; [by apply returns_the|].
  by apply returns_or_raise.
Qed.

Lemma returns_CBF_MAPPERS_getitem {A} (key : cbf_mappers → option A) g mp a :
  CBF_MAPPERS g = Some mp → key mp = Some a → returns (CBF_MAPPERS_getitem key) g a.
Proof.
  intros Hm Hk. eapply returns_bind; [by apply returns_the|].
  by apply returns_or_raise.
Qed.

Lemma preserves_CF_MAPPERS_getitem {A} (key : cf_mappers → option A) :
  preserves (CF_MAPPERS_getitem key).
Proof.
  apply preserves_bind; [apply preserves_the|]. intros; apply preserves_or_raise.
Qed.

Lemma preserves_CBF_MAPPERS_getitem {A} (key : cbf_mappers → option A) :
  preserves (CBF_MAPPERS_getitem key).
Proof.
  apply preserves_bind; [apply preserves_the|]. intros; apply preserves_or_raise.
Qed.

Lemma returns_mapM {A B} (f : A → py B) g l k :
  Forall2 (λ x y, returns (f x) g y) l k → returns (mapM f l) g k.
Proof.
  induction 1 as [|x y l k Hx _ IH]; simpl; [done|].
  eapply returns_bind; [exact Hx|].
  eapply returns_bind; [exact IH|]. done.
Qed.

Lemma preserves_mapM {A B} (f : A → py B) l :
  (∀ x, preserves (f x)) → preserves (mapM f l).
Proof.
  intros Hf. induction l as [|x l IH]; simpl; [done|].
  apply preserves_bind; [done|]. intros y.
  apply preserves_bind; [done|]. intros k. done.
Qed.

(** ** Rows, dot products and id lookups *)

Lemma getitem_row_in_range (a : ndarray) (i : Z) :
  wf_ndarray a → 0 ≤ i < Z.of_nat (shape0 a) →
  ∃ r, getitem_row a i = Some r ∧ length r = shape1 a.
Proof.
  intros Hwf Hi. unfold getitem_row, normalize_index.
  rewrite decide_True by done. simpl.
  destruct (lookup_lt_is_Some_2 (rows a) (Z.to_nat i)) as [r Hr].
  { unfold shape0 in Hi. lia. }
  exists r. split; [done|].
  unfold wf_ndarray in Hwf. rewrite Forall_lookup in Hwf. by eapply Hwf.
Qed.

(** Within range and not negative, [a[i]] is row [i]. *)
Lemma getitem_row_rows (a : ndarray) (i : Z) :
  0 ≤ i < Z.of_nat (shape0 a) → getitem_row a i = rows a !! Z.to_nat i.
Proof.
  intros Hi. unfold getitem_row, normalize_index. by rewrite decide_True.
Qed.

Lemma dot_aligned dot (v : list Q) (a : ndarray) :
  dot_shapes dot →
  length v = shape0 a → ∃ s, dot v a = Some s ∧ length s = shape1 a.
Proof.
  intros Hdot Hv. specialize (Hdot v a). by rewrite decide_True in Hdot.
Qed.

Lemma dot_misaligned dot (v : list Q) (a : ndarray) :
  dot_shapes dot → length v ≠ shape0 a → dot v a = None.
Proof.
  intros Hdot Hv. specialize (Hdot v a). by rewrite decide_False in Hdot.
Qed.

(** The exact dot product meets both contracts. *)
Lemma exact_dot_shapes : dot_shapes exact_dot.
Proof.
  intros v a. unfold exact_dot. case_decide; [|done].
  eexists; split; [done|]. by rewrite length_fmap, length_seq.
Qed.

Lemma exact_dot_exact : dot_exact exact_dot.
Proof. by intros v a _. Qed.

Lemma ids_of_exists (ids : gmap nat string) (idxs : list nat) :
  (∀ i, i ∈ idxs → is_Some (ids !! i)) → ∃ recs, ids_of ids idxs recs.
Proof.
  unfold ids_of. induction idxs as [|i idxs IH]; intros H.
  { exists []. constructor. }
  destruct (H i) as [r Hr]; [left|].
  destruct IH as [recs Hrecs]; [intros j Hj; apply H; by right|].
  exists (r :: recs). by constructor.
Qed.

Lemma ids_of_length ids idxs recs : ids_of ids idxs recs → length recs = length idxs.
Proof. intros H. symmetry. by eapply Forall2_length. Qed.

Lemma ids_of_universe ids idxs recs :
  ids_of ids idxs recs → Forall (λ r, ∃ i, i ∈ idxs ∧ ids !! i = Some r) recs.
Proof.
  induction 1 as [|i r idxs recs Hi _ IH]; constructor.
  - exists i. split; [left|done].
  - eapply Forall_impl; [exact IH|]. intros r' (j & Hj & Hr). exists j.
    split; [by right|done].
Qed.

Lemma ids_of_NoDup ids idxs recs :
  ids_injective ids → ids_of ids idxs recs → NoDup idxs → NoDup recs.
Proof.
  intros Hinj H. induction H as [|i r idxs recs Hi H IH]; intros Hnd.
  { constructor. }
  apply NoDup_cons in Hnd as [Hni Hnd]. apply NoDup_cons. split; [|by apply IH].
  intros Hr. apply ids_of_universe in H. rewrite Forall_forall in H.
  destruct (H r Hr) as (j & Hj & Hjr).
  by rewrite (Hinj i j r Hi Hjr) in Hni.
Qed.

(** ** Runs of the two endpoints *)

Section EndpointRuns.

Context (argsort : list Q → list nat) (dot : list Q → ndarray → option (list Q)).

(** The successful path of the CF endpoint. *)
Lemma cf_run g UF IF u2i its user_id user_index k user_vector scores recs :
  cf_bundle g UF IF u2i its →
  u2i !! user_id = Some user_index →
  getitem_row UF user_index = Some user_vector →
  dot user_vector IF = Some scores →
  ids_of its (reverse (py_slice (Some (- k)) None (argsort scores))) recs →
  returns (get_cf_recommendations argsort dot user_id k) g (user_id, recs).
Proof.
  intros [Huf Hif (mp & Hmp & Hu2i & Hits)] Hui Hrow Hdot Hrecs.
  unfold get_cf_recommendations.
  eapply returns_bind; [apply returns_read|].
  eapply returns_bind; [apply returns_read|].
  rewrite Huf, Hmp.
  eapply returns_bind; [by eapply returns_CF_MAPPERS_getitem|].
  rewrite Hui. apply returns_try_except.
  eapply returns_bind; [by apply returns_the|].
  eapply returns_bind; [by apply returns_or_raise|].
  eapply returns_bind.
  { eapply returns_bind; [apply returns_read|]. rewrite Hif.
    by apply returns_or_raise. }
  eapply returns_bind; [|apply returns_ret].
  apply returns_mapM. eapply Forall2_impl; [exact Hrecs|].
  intros i r Hi. eapply returns_bind; [by eapply returns_CF_MAPPERS_getitem|].
  by apply returns_or_raise.
Qed.

(** The successful path of the CBF endpoint. *)
Lemma cbf_run g SM id2i ids item_id item_index k scores recs :
  cbf_bundle g SM id2i ids →
  id2i !! item_id = Some item_index →
  getitem_row SM item_index = Some scores →
  ids_of ids (py_slice (Some 1) (Some (k + 1)) (reverse (argsort scores))) recs →
  returns (get_cbf_recommendations argsort item_id k) g (item_id, recs).
Proof.
  intros [Hsm (mp & Hmp & Hid2i & Hids)] Hii Hrow Hrecs.
  unfold get_cbf_recommendations.
  eapply returns_bind; [apply returns_read|].
  eapply returns_bind; [apply returns_read|].
  rewrite Hsm, Hmp.
  eapply returns_bind; [by eapply returns_CBF_MAPPERS_getitem|].
  rewrite Hii. apply returns_try_except.
  eapply returns_bind; [by apply returns_the|].
  eapply returns_bind; [by apply returns_or_raise|].
  eapply returns_bind; [|apply returns_ret].
  apply returns_mapM. eapply Forall2_impl; [exact Hrecs|].
  intros i r Hi. eapply returns_bind; [by eapply returns_CBF_MAPPERS_getitem|].
  by apply returns_or_raise.
Qed.

(** Neither endpoint assigns a global. *)
Lemma get_cf_recommendations_preserves user_id k :
  preserves (get_cf_recommendations argsort dot user_id k).
Proof.
  unfold get_cf_recommendations.
  apply preserves_bind; [apply preserves_read|]. intros uf.
  apply preserves_bind; [apply preserves_read|]. intros mp.
  destruct uf, mp; try apply preserves_raise.
  apply preserves_bind; [apply preserves_CF_MAPPERS_getitem|]. intros u2i.
  destruct (u2i !! user_id); [|apply preserves_raise].
  apply preserves_try_except; [|intros; apply preserves_raise].
  apply preserves_bind; [apply preserves_the|]. intros user_factors.
  apply preserves_bind; [apply preserves_or_raise|]. intros user_vector.
  apply preserves_bind.
  { apply preserves_bind; [apply preserves_read|]. intros [m|]; simpl.
    - apply preserves_or_raise.
    - case_decide; [apply preserves_ret|apply preserves_raise]. }
  intros scores.
  apply preserves_bind; [|intros; apply preserves_ret].
  apply preserves_mapM. intros i.
  apply preserves_bind; [apply preserves_CF_MAPPERS_getitem|].
  intros; apply preserves_or_raise.
Qed.

Lemma get_cbf_recommendations_preserves item_id k :
  preserves (get_cbf_recommendations argsort item_id k).
Proof.
  unfold get_cbf_recommendations.
  apply preserves_bind; [apply preserves_read|]. intros sm.
  apply preserves_bind; [apply preserves_read|]. intros mp.
  destruct sm, mp; try apply preserves_raise.
  apply preserves_bind; [apply preserves_CBF_MAPPERS_getitem|]. intros id2i.
  destruct (id2i !! item_id); [|apply preserves_raise].
  apply preserves_try_except; [|intros; apply preserves_raise].
  apply preserves_bind; [apply preserves_the|]. intros sim_matrix.
  apply preserves_bind; [apply preserves_or_raise|]. intros scores.
  apply preserves_bind; [|intros; apply preserves_ret].
  apply preserves_mapM. intros i.
  apply preserves_bind; [apply preserves_CBF_MAPPERS_getitem|].
  intros; apply preserves_or_raise.
Qed.

End EndpointRuns.

(** ** Ranking *)

Lemma descending_app_l s l1 l2 : descending s (l1 ++ l2) → descending s l1.
Proof. apply StronglySorted_app_1_l. Qed.

Lemma descending_app_r s l1 l2 : descending s (l1 ++ l2) → descending s l2.
Proof. apply StronglySorted_app_1_r. Qed.

Lemma descending_take s n l : descending s l → descending s (take n l).
Proof. intros H. rewrite <-(take_drop n l) in H. by eapply descending_app_l. Qed.

Lemma descending_drop s n l : descending s l → descending s (drop n l).
Proof. intros H. rewrite <-(take_drop n l) in H. by eapply descending_app_r. Qed.

Lemma reverse_drop {A} (l : list A) n :
  reverse (drop n l) = take (length l - n) (reverse l).
Proof.
  assert (reverse l = reverse (drop n l) ++ reverse (take n l)) as ->.
  { by rewrite <-reverse_app, take_drop. }
  rewrite take_app_length'; [done|].
  by rewrite length_reverse, length_drop.
Qed.

Section Ranking.

Context (argsort : list Q → list nat) (Hargsort : argsort_spec argsort).
Context (dot : list Q → ndarray → option (list Q)) (Hshapes : dot_shapes dot).

(** The last [k] positions of the ascending order, reversed. *)
Lemma top_k_descending s n : descending s (reverse (drop n (argsort s))).
Proof.
  rewrite reverse_drop. apply descending_take. by apply argsort_descending.
Qed.

Lemma top_k_NoDup s n : NoDup (reverse (drop n (argsort s))).
Proof.
  rewrite reverse_Permutation.
  apply (sublist_NoDup _ (argsort s)); [|apply sublist_drop].
  by apply argsort_NoDup.
Qed.

Lemma top_k_bound s n i : i ∈ reverse (drop n (argsort s)) → (i < length s)%nat.
Proof.
  rewrite elem_of_reverse. intros Hi. apply (argsort_bound argsort Hargsort).
  eapply elem_of_sublist; [done|apply sublist_drop].
Qed.

Lemma top_k_length s n :
  length (reverse (drop n (argsort s))) = (length s - n)%nat.
Proof.
  by rewrite length_reverse, length_drop, (argsort_length argsort Hargsort).
Qed.

(** Every position left out scores no more than any position selected. *)
Lemma top_k_highest s n i j :
  i ∈ reverse (drop n (argsort s)) → (j < length s)%nat →
  j ∉ reverse (drop n (argsort s)) → score_le s j i.
Proof.
  rewrite !elem_of_reverse. intros Hi Hj Hnj.
  destruct (Hargsort s) as [Hp Hs].
  apply Sorted_StronglySorted in Hs; [|apply _].
  rewrite <-(take_drop n (argsort s)) in Hs.
  apply (StronglySorted_app_1_elem_of _ _ _ _ _ Hs); [|done].
  assert (j ∈ take n (argsort s) ++ drop n (argsort s)) as Hin.
  { rewrite take_drop, Hp, elem_of_seq. lia. }
  apply elem_of_app in Hin as [?|?]; done.
Qed.

Lemma ranked_Permutation s : reverse (argsort s) ≡ₚ seq 0 (length s).
Proof. rewrite reverse_Permutation. apply Hargsort. Qed.

(** Under the invariants the scores of a known user are defined, one per
    item, and every position has an id. *)
Lemma cf_scores UF IF u2i its user_id user_index :
  cf_invariant UF IF u2i its → u2i !! user_id = Some user_index →
  ∃ user_vector scores,
    getitem_row UF user_index = Some user_vector ∧
    dot user_vector IF = Some scores ∧ length scores = shape1 IF.
Proof.
  intros [Hwf Hf Hrows _] Hui.
  destruct (getitem_row_in_range UF user_index Hwf (Hrows _ _ Hui)) as (uv & Huv & Hlen).
  destruct (dot_aligned dot uv IF Hshapes) as (scores & Hdot & Hlens); [congruence|].
  by exists uv, scores.
Qed.

(** Under the invariants a mapped index names a row directly. *)
Lemma cf_user_row UF IF u2i its user_id user_index :
  cf_invariant UF IF u2i its → u2i !! user_id = Some user_index →
  getitem_row UF user_index = rows UF !! Z.to_nat user_index.
Proof. intros [_ _ Hrows _] Hui. by eapply getitem_row_rows, Hrows. Qed.

Lemma cbf_item_row SM id2i ids item_id item_index :
  cbf_invariant SM id2i ids → id2i !! item_id = Some item_index →
  getitem_row SM item_index = rows SM !! Z.to_nat item_index.
Proof. intros [_ Hrows _] Hii. by eapply getitem_row_rows, Hrows. Qed.

Lemma cbf_scores SM id2i ids item_id item_index :
  cbf_invariant SM id2i ids → id2i !! item_id = Some item_index →
  ∃ scores, getitem_row SM item_index = Some scores ∧ length scores = shape1 SM.
Proof.
  intros [Hwf Hrows _] Hii. by apply getitem_row_in_range, (Hrows item_id).
Qed.

End Ranking.

(** ** Facts about the scenario *)

Module ScenarioFacts.
Import Scenario.

Lemma item_ids_lookup i r :
  item_ids !! i = Some r →
  (i = 0%nat ∧ r = "item0") ∨ (i = 1%nat ∧ r = "item1") ∨ (i = 2%nat ∧ r = "item2").
Proof.
  unfold item_ids. rewrite !lookup_insert_Some, lookup_empty.
  intuition congruence.
Qed.

Lemma user_indices_lookup uid ui :
  user_indices !! uid = Some ui → (uid = "u0" ∧ ui = 0) ∨ (uid = "u1" ∧ ui = 1).
Proof.
  unfold user_indices, invert_users; simpl.
  rewrite !lookup_insert_Some, lookup_empty. intuition congruence.
Qed.

Lemma item_indices_lookup id i :
  item_indices !! id = Some i →
  (id = "item0" ∧ i = 0) ∨ (id = "item1" ∧ i = 1) ∨ (id = "item2" ∧ i = 2).
Proof.
  unfold item_indices. rewrite !lookup_insert_Some, lookup_empty.
  intuition congruence.
Qed.

Lemma item_ids_total i : (i < 3)%nat → is_Some (item_ids !! i).
Proof.
  intros Hi. destruct i as [|[|[|i]]]; [by eexists..|lia].
Qed.

Lemma item_ids_injective : ids_injective item_ids.
Proof.
  intros i j r Hi Hj.
  apply item_ids_lookup in Hi, Hj. intuition congruence.
Qed.

Lemma loaded_cf_bundle : cf_bundle loaded user_factors item_factors user_indices item_ids.
Proof.
  split; [reflexivity..|]. eexists. split; [reflexivity|]. split; reflexivity.
Qed.

Lemma loaded_cf_invariant : cf_invariant user_factors item_factors user_indices item_ids.
Proof.
  split.
  - repeat constructor.
  - reflexivity.
  - intros uid ui H. apply user_indices_lookup in H. unfold shape0; simpl.
    destruct H as [[_ ->]|[_ ->]]; lia.
  - apply item_ids_total.
Qed.

Lemma loaded_cbf_bundle : cbf_bundle loaded similarity_matrix item_indices item_ids.
Proof.
  split; [reflexivity|]. eexists. split; [reflexivity|]. split; reflexivity.
Qed.

Lemma loaded_cbf_invariant : cbf_invariant similarity_matrix item_indices item_ids.
Proof.
  split.
  - repeat constructor.
  - intros id i H. apply item_indices_lookup in H. unfold shape0; simpl.
    destruct H as [[_ ->]|[[_ ->]|[_ ->]]]; lia.
  - apply item_ids_total.
Qed.

(** The entries of the two factor matrices are small integers. *)
Lemma scores_exactly_representable :
  exactly_representable [1; 0]%Q item_factors.
Proof.
  split; [|split].
  - by repeat constructor.
  - by repeat constructor.
  - intros [|[|[|j]]] Hj; [done..|simpl in Hj; lia].
Qed.

End ScenarioFacts.

(** ** Properties of the service *)

(** C1, as stated, fails on its "no duplicates": the endpoint maps the
    selected positions to ids one by one, so positions 0 and 2 that carry the
    same id give that id twice.  Every shape invariant holds here. *)
Lemma cf_recommend_repeats_a_shared_id :
  cf_bundle Scenario.shared_id_loaded Scenario.user_factors Scenario.item_factors
            Scenario.user_indices Scenario.shared_item_ids ∧
  cf_invariant Scenario.user_factors Scenario.item_factors
               Scenario.user_indices Scenario.shared_item_ids ∧
  returns (get_cf_recommendations argsort_merge exact_dot "u0" 2)
          Scenario.shared_id_loaded ("u0", ["a"; "a"]) ∧
  ¬ NoDup ["a"; "a"].
Proof.
  split; [|split; [|split]].
  - split; [reflexivity..|]. eexists. split; [reflexivity|]. split; reflexivity.
  - split.
    + repeat constructor.
    + reflexivity.
    + intros uid ui H. apply ScenarioFacts.user_indices_lookup in H.
      unfold shape0; simpl. destruct H as [[_ ->]|[_ ->]]; lia.
    + intros i Hi. destruct i as [|[|[|i]]]; [by eexists..|simpl in Hi; lia].
  - reflexivity.
  - intros H. apply NoDup_cons in H as [H _]. apply H. left.
Qed.

(** C1, amended. For a known user and a positive [k], the CF endpoint returns
    [min k num_items] item ids: the ids, each one of the index-to-id mapping,
    of the first [k] positions of the descending order of the scores that
    numpy's dot gives the user's row and the item matrix.  The positions are
    pairwise distinct, so the ids are without repetition whenever the mapping
    gives distinct positions distinct ids; they are in non-increasing order of
    score; when [k] is at least [num_items] they are all the items.  No item
    left out scores more than an item returned. *)
Theorem cf_recommend_top_k argsort dot g UF IF u2i its user_id user_index k :
  argsort_spec argsort →
  dot_shapes dot →
  cf_bundle g UF IF u2i its →
  cf_invariant UF IF u2i its →
  u2i !! user_id = Some user_index →
  0 < k →
  ∃ user_vector scores recs,
    let idxs := take (Z.to_nat k) (reverse (argsort scores)) in
    rows UF !! Z.to_nat user_index = Some user_vector ∧
    dot user_vector IF = Some scores ∧
    returns (get_cf_recommendations argsort dot user_id k) g (user_id, recs) ∧
    ids_of its idxs recs ∧
    length recs = Nat.min (Z.to_nat k) (shape1 IF) ∧
    Forall (λ r, ∃ i, (i < shape1 IF)%nat ∧ its !! i = Some r) recs ∧
    NoDup idxs ∧
    (ids_injective its → NoDup recs) ∧
    descending scores idxs ∧
    ((shape1 IF ≤ Z.to_nat k)%nat → idxs ≡ₚ seq 0 (shape1 IF)) ∧
    (∀ i j, i ∈ idxs → (j < shape1 IF)%nat → j ∉ idxs → score_le scores j i).
Proof.
  intros Hargsort Hshapes Hg Hinv Hui Hk.
  destruct (cf_scores dot Hshapes UF IF u2i its user_id user_index Hinv Hui)
    as (uv & scores & Huv & Hdot & Hlen).
  set (n := (length scores - Z.to_nat k)%nat).
  assert (Htake : take (Z.to_nat k) (reverse (argsort scores))
                  = reverse (drop n (argsort scores))).
  { by rewrite take_reverse, (argsort_length argsort Hargsort). }
  exists uv, scores. simpl. rewrite Htake.
  set (idxs := reverse (drop n (argsort scores))).
  assert (Hslice : reverse (py_slice (Some (- k)) None (argsort scores)) = idxs).
  { rewrite slice_last by done. by rewrite (argsort_length argsort Hargsort). }
  assert (Hbound : ∀ i, i ∈ idxs → (i < shape1 IF)%nat).
  { intros i Hi. rewrite <-Hlen. by eapply top_k_bound. }
  destruct (ids_of_exists its idxs) as [recs Hrecs].
  { intros i Hi. by apply (cf_item_ids _ _ _ _ Hinv), Hbound. }
  assert (Hnd : NoDup idxs) by by apply top_k_NoDup.
  exists recs. repeat split; try done.
  - by rewrite <-(cf_user_row UF IF u2i its user_id user_index Hinv Hui).
  - eapply cf_run; try done. by rewrite Hslice.
  - rewrite (ids_of_length _ _ _ Hrecs). unfold idxs.
    rewrite (top_k_length argsort Hargsort). lia.
  - eapply Forall_impl; [by apply ids_of_universe|].
    intros r (i & Hi & Hr). exists i. split; [by apply Hbound|done].
  - intros Hinj. by eapply ids_of_NoDup.
  - by apply top_k_descending.
  - intros Hall. unfold idxs. replace n with 0%nat by lia. rewrite drop_0.
    rewrite <-Hlen. by apply ranked_Permutation.
  - intros i j Hi Hj Hnj. apply (top_k_highest argsort Hargsort scores n); try done.
    by rewrite Hlen.
Qed.

Lemma cf_recommend_top_k_witness :
  rows Scenario.user_factors !! 0%nat = Some [1; 0]%Q ∧
  exact_dot [1; 0]%Q Scenario.item_factors = Some [2; 0; 1]%Q ∧
  returns (get_cf_recommendations argsort_merge exact_dot "u0" 2) Scenario.loaded
          ("u0", ["item0"; "item2"]) ∧
  NoDup ["item0"; "item2"].
Proof.
  destruct (cf_recommend_top_k argsort_merge exact_dot Scenario.loaded
              Scenario.user_factors Scenario.item_factors
              Scenario.user_indices Scenario.item_ids "u0" 0 2
              argsort_merge_spec exact_dot_shapes
              ScenarioFacts.loaded_cf_bundle ScenarioFacts.loaded_cf_invariant
              eq_refl eq_refl)
    as (uv & scores & recs & Hrow & Hdot & Hrun & _ & _ & _ & _ & Hnd & _).
  assert (uv = [1; 0]%Q) as -> by (simpl in Hrow; congruence).
  assert (returns (get_cf_recommendations argsort_merge exact_dot "u0" 2)
                  Scenario.loaded ("u0", ["item0"; "item2"])) as Hc by reflexivity.
  assert (recs = ["item0"; "item2"]) as ->.
  { unfold returns in Hrun, Hc. rewrite Hc in Hrun. by injection Hrun. }
  split; [exact Hrow|]. split; [reflexivity|]. split; [exact Hc|].
  exact (Hnd ScenarioFacts.item_ids_injective).
Defined.

(** C10. With [k = 0] the CF endpoint returns, for a known user, the ids of
    all [num_items] items, ranked: the slice [[-0:]] is the whole array.  The
    result is empty only when there is no item. *)
Theorem cf_recommend_zero_returns_all argsort dot g UF IF u2i its user_id user_index :
  argsort_spec argsort →
  dot_shapes dot →
  cf_bundle g UF IF u2i its →
  cf_invariant UF IF u2i its →
  u2i !! user_id = Some user_index →
  ∃ user_vector scores recs,
    rows UF !! Z.to_nat user_index = Some user_vector ∧
    getitem_row UF user_index = Some user_vector ∧
    dot user_vector IF = Some scores ∧
    returns (get_cf_recommendations argsort dot user_id 0) g (user_id, recs) ∧
    ids_of its (reverse (argsort scores)) recs ∧
    reverse (argsort scores) ≡ₚ seq 0 (shape1 IF) ∧
    descending scores (reverse (argsort scores)) ∧
    length recs = shape1 IF ∧
    ((0 < shape1 IF)%nat → recs ≠ []).
Proof.
  intros Hargsort Hshapes Hg Hinv Hui.
  destruct (cf_scores dot Hshapes UF IF u2i its user_id user_index Hinv Hui)
    as (uv & scores & Huv & Hdot & Hlen).
  assert (Hperm : reverse (argsort scores) ≡ₚ seq 0 (shape1 IF)).
  { rewrite <-Hlen. by apply ranked_Permutation. }
  destruct (ids_of_exists its (reverse (argsort scores))) as [recs Hrecs].
  { intros i Hi. apply (cf_item_ids _ _ _ _ Hinv).
    rewrite Hperm, elem_of_seq in Hi. lia. }
  assert (Hlenr : length recs = shape1 IF).
  { by rewrite (ids_of_length _ _ _ Hrecs), (Permutation_length Hperm), length_seq. }
  exists uv, scores, recs. repeat split; try done.
  - by rewrite <-(cf_user_row UF IF u2i its user_id user_index Hinv Hui).
  - eapply cf_run; try done. by rewrite slice_last_zero.
  - by apply argsort_descending.
  - intros Hpos ->. simpl in Hlenr. lia.
Qed.

Lemma cf_recommend_zero_returns_all_witness :
  ∃ recs, returns (get_cf_recommendations argsort_merge exact_dot "u0" 0) Scenario.loaded
                  ("u0", recs) ∧ length recs = 3%nat.
Proof.
  destruct (cf_recommend_zero_returns_all argsort_merge exact_dot Scenario.loaded
              Scenario.user_factors Scenario.item_factors
              Scenario.user_indices Scenario.item_ids "u0" 0
              argsort_merge_spec exact_dot_shapes
              ScenarioFacts.loaded_cf_bundle ScenarioFacts.loaded_cf_invariant
              eq_refl)
    as (_ & _ & recs & _ & _ & _ & Hrun & _ & _ & _ & Hlen & _).
  exists recs. split; [exact Hrun|exact Hlen].
Defined.

(** C2. For a known item and a positive [k], the CBF endpoint returns
    [min k (num_items - 1)] item ids in non-increasing order of similarity:
    the ids at ranks [1..k] of the descending order of the item's row of the
    similarity matrix.  Rank 0 is skipped by position, whichever item holds
    it. *)
Theorem cbf_recommend_skips_rank_0 argsort g SM id2i ids item_id item_index k :
  argsort_spec argsort →
  cbf_bundle g SM id2i ids →
  cbf_invariant SM id2i ids →
  id2i !! item_id = Some item_index →
  0 < k →
  ∃ scores recs,
    let ranked := reverse (argsort scores) in
    rows SM !! Z.to_nat item_index = Some scores ∧
    getitem_row SM item_index = Some scores ∧
    returns (get_cbf_recommendations argsort item_id k) g (item_id, recs) ∧
    ranked ≡ₚ seq 0 (shape1 SM) ∧
    descending scores ranked ∧
    ids_of ids (take (Z.to_nat k) (drop 1 ranked)) recs ∧
    descending scores (take (Z.to_nat k) (drop 1 ranked)) ∧
    length recs = Nat.min (Z.to_nat k) (shape1 SM - 1).
Proof.
  intros Hargsort Hg Hinv Hii Hk.
  destruct (cbf_scores SM id2i ids item_id item_index Hinv Hii)
    as (scores & Hrow & Hlen).
  set (ranked := reverse (argsort scores)).
  assert (Hperm : ranked ≡ₚ seq 0 (shape1 SM)).
  { rewrite <-Hlen. by apply ranked_Permutation. }
  assert (Hdesc : descending scores ranked) by by apply argsort_descending.
  set (idxs := take (Z.to_nat k) (drop 1 ranked)).
  destruct (ids_of_exists ids idxs) as [recs Hrecs].
  { intros i Hi. apply (cbf_item_ids _ _ _ Hinv).
    assert (i ∈ ranked) as Hr.
    { eapply elem_of_sublist; [exact Hi|].
      etrans; [apply sublist_take|apply sublist_drop]. }
    rewrite Hperm, elem_of_seq in Hr. lia. }
  exists scores, recs. simpl. repeat split; try done.
  - by rewrite <-(cbf_item_row SM id2i ids item_id item_index Hinv Hii).
  - eapply cbf_run; try done. rewrite slice_skip_first by lia. exact Hrecs.
  - by apply descending_take, descending_drop.
  - rewrite (ids_of_length _ _ _ Hrecs). unfold idxs.
    rewrite length_take, length_drop, (Permutation_length Hperm), length_seq.
    done.
Qed.

Lemma cbf_recommend_skips_rank_0_witness :
  rows Scenario.similarity_matrix !! 0%nat = Some [1; 8 # 10; 1 # 10]%Q ∧
  reverse (argsort_merge [1; 8 # 10; 1 # 10]%Q) = [0; 1; 2]%nat ∧
  returns (get_cbf_recommendations argsort_merge "item0" 5) Scenario.loaded
          ("item0", ["item1"; "item2"]) ∧
  ids_of Scenario.item_ids [1; 2]%nat ["item1"; "item2"].
Proof.
  destruct (cbf_recommend_skips_rank_0 argsort_merge Scenario.loaded
              Scenario.similarity_matrix Scenario.item_indices Scenario.item_ids
              "item0" 0 5
              argsort_merge_spec
              ScenarioFacts.loaded_cbf_bundle ScenarioFacts.loaded_cbf_invariant
              eq_refl eq_refl)
    as (scores & recs & Hrow & _ & Hrun & _ & _ & Hids & _).
  assert (scores = [1; 8 # 10; 1 # 10]%Q) as -> by (simpl in Hrow; congruence).
  assert (returns (get_cbf_recommendations argsort_merge "item0" 5)
                  Scenario.loaded ("item0", ["item1"; "item2"])) as Hc by reflexivity.
  assert (recs = ["item1"; "item2"]) as ->.
  { unfold returns in Hrun, Hc. rewrite Hc in Hrun. by injection Hrun. }
  split; [exact Hrow|]. split; [reflexivity|]. split; [exact Hc|]. exact Hids.
Defined.

(** C5. An id that the mapping of a loaded model does not hold is answered
    with the 404 error, by the CF endpoint for a user id and by the CBF
    endpoint for an item id, not with an internal error. *)
Theorem unknown_id_not_found argsort dot g id k :
  (∀ UF mp u2i,
     CF_USER_FACTORS g = Some UF → CF_MAPPERS g = Some mp →
     user_id_to_index mp = Some u2i → u2i !! id = None →
     raises (get_cf_recommendations argsort dot id k) g
            (HTTPException 404 ("User " +:+ id +:+ " not found (cold start).")) ∧
     fails_with NotFound (get_cf_recommendations argsort dot id k g)) ∧
  (∀ SM mp id2i,
     CBF_SIM_MATRIX g = Some SM → CBF_MAPPERS g = Some mp →
     item_id_to_index mp = Some id2i → id2i !! id = None →
     raises (get_cbf_recommendations argsort id k) g
            (HTTPException 404 ("Item " +:+ id +:+ " not found.")) ∧
     fails_with NotFound (get_cbf_recommendations argsort id k g)).
Proof.
  split.
  - intros UF mp u2i Huf Hmp Hu2i Hid.
    assert (raises (get_cf_recommendations argsort dot id k) g
              (HTTPException 404 ("User " +:+ id +:+ " not found (cold start)."))) as Hr.
    { unfold get_cf_recommendations.
      eapply raises_bind_after; [apply returns_read|].
      eapply raises_bind_after; [apply returns_read|].
      rewrite Huf, Hmp.
      eapply raises_bind_after; [by eapply returns_CF_MAPPERS_getitem|].
      rewrite Hid. apply raises_raise. }
    split; [done|]. eexists. rewrite Hr. done.
  - intros SM mp id2i Hsm Hmp Hid2i Hid.
    assert (raises (get_cbf_recommendations argsort id k) g
              (HTTPException 404 ("Item " +:+ id +:+ " not found."))) as Hr.
    { unfold get_cbf_recommendations.
      eapply raises_bind_after; [apply returns_read|].
      eapply raises_bind_after; [apply returns_read|].
      rewrite Hsm, Hmp.
      eapply raises_bind_after; [by eapply returns_CBF_MAPPERS_getitem|].
      rewrite Hid. apply raises_raise. }
    split; [done|]. eexists. rewrite Hr. done.
Qed.

Lemma unknown_id_not_found_witness :
  fails_with NotFound (get_cf_recommendations argsort_merge exact_dot "u9" 2 Scenario.loaded) ∧
  fails_with NotFound (get_cbf_recommendations argsort_merge "u9" 2 Scenario.loaded).
Proof.
  split.
  - exact (proj2 (proj1 (unknown_id_not_found argsort_merge exact_dot Scenario.loaded "u9" 2)
                    _ _ _ eq_refl eq_refl eq_refl eq_refl)).
  - exact (proj2 (proj2 (unknown_id_not_found argsort_merge exact_dot Scenario.loaded "u9" 2)
                    _ _ _ eq_refl eq_refl eq_refl eq_refl)).
Defined.

(** The two score vectors of the scenario hold pairwise different values, so
    every argsort orders them the same way. *)
Lemma argsort_cf_scores argsort :
  argsort_spec argsort → argsort [2; 0; 1]%Q = [1; 2; 0]%nat.
Proof.
  intros Hargsort. rewrite (argsort_unique argsort Hargsort); [done|].
  intros [|[|[|i]]] [|[|[|j]]] Hi Hj; simpl in *; try lia; try done.
Qed.

Lemma argsort_cbf_scores argsort :
  argsort_spec argsort → argsort [1; 8 # 10; 1 # 10]%Q = [2; 1; 0]%nat.
Proof.
  intros Hargsort. rewrite (argsort_unique argsort Hargsort); [done|].
  intros [|[|[|i]]] [|[|[|j]]] Hi Hj; simpl in *; try lia; try done.
Qed.

(** C6. With user factors [[1,0],[0,1]] and item factors [[2,0,1],[0,3,1]] the
    scores of user index 0 are [2,0,1], and the CF endpoint with [k = 2]
    returns for that user the ids of item 0 and item 2, in this order. *)
Theorem cf_scenario argsort dot g u2i its user_id id0 id2 :
  argsort_spec argsort →
  dot_exact dot →
  cf_bundle g Scenario.user_factors Scenario.item_factors u2i its →
  u2i !! user_id = Some 0 →
  its !! 0%nat = Some id0 →
  its !! 2%nat = Some id2 →
  getitem_row Scenario.user_factors 0 = Some [1; 0]%Q ∧
  dot [1; 0]%Q Scenario.item_factors = Some [2; 0; 1]%Q ∧
  reverse (py_slice (Some (- 2)) None (argsort [2; 0; 1]%Q)) = [0; 2]%nat ∧
  returns (get_cf_recommendations argsort dot user_id 2) g (user_id, [id0; id2]).
Proof.
  intros Hargsort Hexact Hg Hui H0 H2.
  assert (reverse (py_slice (Some (- 2)) None (argsort [2; 0; 1]%Q)) = [0; 2]%nat)
    as Htop by by rewrite (argsort_cf_scores argsort Hargsort).
  assert (dot [1; 0]%Q Scenario.item_factors = Some [2; 0; 1]%Q) as Hdot.
  { rewrite Hexact; [done|]. apply ScenarioFacts.scores_exactly_representable. }
  repeat split; try done.
  apply (cf_run argsort dot g Scenario.user_factors Scenario.item_factors u2i its
           user_id 0 2 [1; 0]%Q [2; 0; 1]%Q); try done.
  change (Z.opp 2) with (Z.neg 2). rewrite Htop. by repeat constructor.
Qed.

Lemma cf_scenario_witness :
  returns (get_cf_recommendations argsort_merge exact_dot "u0" 2) Scenario.loaded
          ("u0", ["item0"; "item2"]).
Proof.
  exact (proj2 (proj2 (proj2
    (cf_scenario argsort_merge exact_dot Scenario.loaded Scenario.user_indices
       Scenario.item_ids "u0" "item0" "item2"
       argsort_merge_spec exact_dot_exact ScenarioFacts.loaded_cf_bundle
       eq_refl eq_refl eq_refl)))).
Defined.

(** C7. With the similarity matrix [[1.0,0.8,0.1],[0.8,1.0,0.3],[0.1,0.3,1.0]]
    the CBF endpoint with [k = 1] returns for item index 0 the id of item 1
    alone: item 0 itself is at rank 0 of the descending order and is skipped,
    item 1 follows with similarity 0.8. *)
Theorem cbf_scenario argsort g id2i ids item_id id1 :
  argsort_spec argsort →
  cbf_bundle g Scenario.similarity_matrix id2i ids →
  id2i !! item_id = Some 0 →
  ids !! 1%nat = Some id1 →
  getitem_row Scenario.similarity_matrix 0 = Some [1; 8 # 10; 1 # 10]%Q ∧
  reverse (argsort [1; 8 # 10; 1 # 10]%Q) = [0; 1; 2]%nat ∧
  returns (get_cbf_recommendations argsort item_id 1) g (item_id, [id1]).
Proof.
  intros Hargsort Hg Hii H1.
  assert (reverse (argsort [1; 8 # 10; 1 # 10]%Q) = [0; 1; 2]%nat)
    as Hranked by by rewrite (argsort_cbf_scores argsort Hargsort).
  repeat split; try done.
  apply (cbf_run argsort g Scenario.similarity_matrix id2i ids item_id 0 1
           [1; 8 # 10; 1 # 10]%Q); try done.
  rewrite Hranked. by repeat constructor.
Qed.

Lemma cbf_scenario_witness :
  returns (get_cbf_recommendations argsort_merge "item0" 1) Scenario.loaded
          ("item0", ["item1"]).
Proof.
  exact (proj2 (proj2
    (cbf_scenario argsort_merge Scenario.loaded Scenario.item_indices
       Scenario.item_ids "item0" "item1"
       argsort_merge_spec ScenarioFacts.loaded_cbf_bundle
       eq_refl eq_refl))).
Defined.

(** ** Requests leave the globals alone *)

Lemma handle_preserves argsort dot r : preserves (handle argsort dot r).
Proof.
  destruct r; simpl.
  - apply get_cf_recommendations_preserves.
  - apply get_cbf_recommendations_preserves.
Qed.

Lemma serve_preserves argsort dot rs g : serve argsort dot rs g = g.
Proof.
  revert g. induction rs as [|r rs IH]; intros g; simpl; [done|].
  by rewrite (handle_preserves argsort dot r g).
Qed.

(** C9. No request changes a global: after a call of either endpoint,
    successful or not, and after any sequence of calls, the factor matrices,
    the similarity matrix and the mappings are what they were. *)
Theorem requests_leave_globals_unchanged argsort dot g id k rs :
  (get_cf_recommendations argsort dot id k g).2 = g ∧
  (get_cbf_recommendations argsort id k g).2 = g ∧
  serve argsort dot rs g = g.
Proof.
  split; [apply get_cf_recommendations_preserves|].
  split; [apply get_cbf_recommendations_preserves|].
  apply serve_preserves.
Qed.

(** ** The readiness guards *)

Section Guards.

Context (argsort : list Q → list nat) (dot : list Q → ndarray → option (list Q)).

Lemma cf_not_ready g user_id k :
  CF_USER_FACTORS g = None ∨ CF_MAPPERS g = None →
  raises (get_cf_recommendations argsort dot user_id k) g
         (HTTPException 500 "CF model not loaded.").
Proof.
  intros H. unfold get_cf_recommendations.
  eapply raises_bind_after; [apply returns_read|].
  eapply raises_bind_after; [apply returns_read|].
  destruct H as [-> | ->]; [done|]. by destruct (CF_USER_FACTORS g).
Qed.

Lemma cbf_not_ready g item_id k :
  CBF_SIM_MATRIX g = None ∨ CBF_MAPPERS g = None →
  raises (get_cbf_recommendations argsort item_id k) g
         (HTTPException 500 "CBF model not loaded.").
Proof.
  intros H. unfold get_cbf_recommendations.
  eapply raises_bind_after; [apply returns_read|].
  eapply raises_bind_after; [apply returns_read|].
  destruct H as [-> | ->]; [done|]. by destruct (CBF_SIM_MATRIX g).
Qed.

(** The CF guard lets through a bundle whose mapping dictionary lacks the
    derived key: the lookup then raises outside the [try]. *)
Lemma cf_key_error g UF mp user_id k :
  CF_USER_FACTORS g = Some UF → CF_MAPPERS g = Some mp →
  user_id_to_index mp = None →
  raises (get_cf_recommendations argsort dot user_id k) g KeyError.
Proof.
  intros Huf Hmp Hkey. unfold get_cf_recommendations.
  eapply raises_bind_after; [apply returns_read|].
  eapply raises_bind_after; [apply returns_read|].
  rewrite Huf, Hmp. apply raises_bind.
  eapply raises_bind_after; [by apply returns_the|].
  rewrite Hkey. apply raises_or_raise.
Qed.

(** The CF guard lets through a bundle without item factors: the dot product
    then raises inside the [try]. *)
Lemma cf_internal_error_without_item_factors
    g UF mp u2i user_id user_index user_vector k :
  CF_USER_FACTORS g = Some UF → CF_MAPPERS g = Some mp →
  CF_ITEM_FACTORS g = None →
  user_id_to_index mp = Some u2i → u2i !! user_id = Some user_index →
  getitem_row UF user_index = Some user_vector → user_vector ≠ [] →
  raises (get_cf_recommendations argsort dot user_id k) g
         (HTTPException 500 "Error during CF inference.").
Proof.
  intros Huf Hmp Hif Hkey Hui Hrow Hne. unfold get_cf_recommendations.
  eapply raises_bind_after; [apply returns_read|].
  eapply raises_bind_after; [apply returns_read|].
  rewrite Huf, Hmp.
  eapply raises_bind_after; [by eapply returns_CF_MAPPERS_getitem|].
  rewrite Hui. eapply raises_try_except; [|apply raises_raise].
  eapply raises_bind_after; [by apply returns_the|].
  eapply raises_bind_after; [by apply returns_or_raise|].
  apply raises_bind.
  eapply raises_bind_after; [apply returns_read|].
  rewrite Hif. simpl. rewrite decide_False by done. apply raises_raise.
Qed.

End Guards.

(** ** The loader *)

Lemma read_fails_inl {A} (e : exn) : read_fails (inl e : exn + A).
Proof. by exists e. Qed.

Lemma read_fails_inr {A} (a : A) : ¬ read_fails (inr a : exn + A).
Proof. by intros [e He]. Qed.

Create HintDb load.
#[local] Hint Resolve read_fails_inl : load.

Ltac load_cases fs :=
  destruct fs as [[?|[[?|] ? ?]] [?|?] [?|?] [?|?] [?|?]]; simpl.

Ltac solve_load :=
  repeat match goal with
         | H : read_fails (inr _) |- _ => destruct (read_fails_inr _ H)
         | H : _ ∨ _ |- _ => destruct H
         | H : ∃ _, _ |- _ => destruct H
         | H : _ ∧ _ |- _ => destruct H
         end;
  try done; try congruence; eauto 6 with load.

(** What the loader leaves in each global. *)
Lemma load_all_artifacts_fields fs :
  let r := load_all_artifacts fs globals0 in
  r.1 = inr tt ∧
  (CF_MAPPERS r.2 = None ↔ read_fails (mappers_pkl fs)) ∧
  (CF_USER_FACTORS r.2 = None ↔
     read_fails (mappers_pkl fs) ∨ read_fails (user_factors_npy fs)) ∧
  (CF_ITEM_FACTORS r.2 = None ↔
     read_fails (mappers_pkl fs) ∨ read_fails (user_factors_npy fs) ∨
     read_fails (item_factors_npy fs)) ∧
  (CBF_MAPPERS r.2 = None ↔ read_fails (cbf_mappers_pkl fs)) ∧
  (CBF_SIM_MATRIX r.2 = None ↔
     read_fails (cbf_mappers_pkl fs) ∨ read_fails (cbf_similarity_matrix_npy fs)).
Proof.
  load_cases fs; repeat split; intros; solve_load.
Qed.

(** The CBF globals are decided by the CBF files alone. *)
Lemma load_cbf_independent fs fs' :
  cbf_mappers_pkl fs = cbf_mappers_pkl fs' →
  cbf_similarity_matrix_npy fs = cbf_similarity_matrix_npy fs' →
  let g := (load_all_artifacts fs globals0).2 in
  let g' := (load_all_artifacts fs' globals0).2 in
  CBF_MAPPERS g = CBF_MAPPERS g' ∧ CBF_SIM_MATRIX g = CBF_SIM_MATRIX g'.
Proof.
  load_cases fs; load_cases fs'; intros; simplify_eq; done.
Qed.

(** A failed load of the CBF bundle always ends in the "not loaded" answer. *)
Lemma cbf_load_failure_not_ready argsort fs item_id k :
  cbf_load_fails fs →
  raises (get_cbf_recommendations argsort item_id k)
         (load_all_artifacts fs globals0).2
         (HTTPException 500 "CBF model not loaded.").
Proof.
  intros Hfail. apply cbf_not_ready.
  destruct (load_all_artifacts_fields fs) as (_ & _ & _ & _ & Hmp & Hsm).
  destruct Hfail as [H|H]; [right; by apply Hmp|left; apply Hsm; by right].
Qed.

(** So does a load of the CF bundle that fails at one of its first two
    reads. *)
Lemma cf_early_load_failure_not_ready argsort dot fs user_id k :
  read_fails (mappers_pkl fs) ∨ read_fails (user_factors_npy fs) →
  raises (get_cf_recommendations argsort dot user_id k)
         (load_all_artifacts fs globals0).2
         (HTTPException 500 "CF model not loaded.").
Proof.
  intros Hfail. apply cf_not_ready.
  destruct (load_all_artifacts_fields fs) as (_ & _ & Huf & _).
  left. by apply Huf.
Qed.

(** C4, as stated, fails: with [item_factors.npy] missing the load of the CF
    bundle raises at its third read, the loader returns normally, and the
    mapping and the user factors assigned before the failure stay set. *)
Lemma load_failure_leaves_cf_fields_set :
  let r := load_all_artifacts Scenario.files_without_item_factors globals0 in
  cf_load_fails Scenario.files_without_item_factors ∧
  r.1 = inr tt ∧
  CF_ITEM_FACTORS r.2 = None ∧
  CF_USER_FACTORS r.2 = Some Scenario.user_factors ∧
  CF_MAPPERS r.2 ≠ None.
Proof.
  simpl. split; [|done].
  right; right; left. apply read_fails_inl.
Qed.

(** C4, amended. Whatever the reads find, the loader returns without raising.
    A bundle whose load fails keeps the fields assigned before the failing
    step and has the later ones unset: all of them are unset only when the
    first read, of the mapping file, fails.  The other bundle is unaffected:
    a bundle whose own steps all succeed is completely set, whatever happens
    to the other one, and a bundle that fails is left as its own failing step
    decides. *)
Theorem load_failure_keeps_earlier_fields fs :
  let r := load_all_artifacts fs globals0 in
  r.1 = inr tt ∧
  (∀ m us uf itf, mappers_pkl fs = inr m → users m = Some us →
     user_factors_npy fs = inr uf → item_factors_npy fs = inr itf →
     CF_MAPPERS r.2
     = Some (CfMappers (users m) (items m) (Some (invert_users us))) ∧
     CF_USER_FACTORS r.2 = Some uf ∧ CF_ITEM_FACTORS r.2 = Some itf) ∧
  (∀ m sm, cbf_mappers_pkl fs = inr m →
     cbf_similarity_matrix_npy fs = inr sm →
     CBF_MAPPERS r.2 = Some m ∧ CBF_SIM_MATRIX r.2 = Some sm) ∧
  (read_fails (mappers_pkl fs) →
     CF_MAPPERS r.2 = None ∧ CF_USER_FACTORS r.2 = None ∧
     CF_ITEM_FACTORS r.2 = None) ∧
  (∀ m, mappers_pkl fs = inr m → read_fails (user_factors_npy fs) →
     CF_MAPPERS r.2 = Some m ∧ CF_USER_FACTORS r.2 = None ∧
     CF_ITEM_FACTORS r.2 = None) ∧
  (∀ m uf, mappers_pkl fs = inr m → user_factors_npy fs = inr uf →
     read_fails (item_factors_npy fs) →
     CF_MAPPERS r.2 = Some m ∧ CF_USER_FACTORS r.2 = Some uf ∧
     CF_ITEM_FACTORS r.2 = None) ∧
  (∀ m uf itf, mappers_pkl fs = inr m → user_factors_npy fs = inr uf →
     item_factors_npy fs = inr itf → users m = None →
     CF_MAPPERS r.2 = Some m ∧ CF_USER_FACTORS r.2 = Some uf ∧
     CF_ITEM_FACTORS r.2 = Some itf) ∧
  (read_fails (cbf_mappers_pkl fs) →
     CBF_MAPPERS r.2 = None ∧ CBF_SIM_MATRIX r.2 = None) ∧
  (∀ m, cbf_mappers_pkl fs = inr m →
     read_fails (cbf_similarity_matrix_npy fs) →
     CBF_MAPPERS r.2 = Some m ∧ CBF_SIM_MATRIX r.2 = None).
Proof.
  load_cases fs; repeat split; intros; simplify_eq/=; solve_load.
Qed.

(** C3 at the failing input. With [item_factors.npy] missing the CF bundle
    fails to load, yet no call of the CF endpoint is answered "not loaded":
    the guard tests the user factors and the mapping only, both set, and the
    call stops at the missing key of the mapping.  When the pickle already
    holds that key, a known user gets the inference error and an unknown one
    the 404.  The CBF endpoint answers as usual. *)
Theorem cf_partial_load_is_not_NotReady argsort dot user_id k :
  let g := (load_all_artifacts Scenario.files_without_item_factors globals0).2 in
  let g' := (load_all_artifacts
               Scenario.files_with_index_without_item_factors globals0).2 in
  cf_load_fails Scenario.files_without_item_factors ∧
  cf_load_fails Scenario.files_with_index_without_item_factors ∧
  raises (get_cf_recommendations argsort dot user_id k) g KeyError ∧
  ¬ fails_with NotReady (get_cf_recommendations argsort dot user_id k g) ∧
  raises (get_cf_recommendations argsort dot "u0" k) g'
         (HTTPException 500 "Error during CF inference.") ∧
  fails_with InternalError (get_cf_recommendations argsort dot "u0" k g') ∧
  fails_with NotFound (get_cf_recommendations argsort dot "u9" k g') ∧
  (argsort_spec argsort →
   returns (get_cbf_recommendations argsort "item0" 1) g ("item0", ["item1"])).
Proof.
  intros g g'.
  assert (raises (get_cf_recommendations argsort dot user_id k) g KeyError) as Hkey.
  { by eapply cf_key_error. }
  assert (raises (get_cf_recommendations argsort dot "u0" k) g'
            (HTTPException 500 "Error during CF inference.")) as Herr.
  { eapply (cf_internal_error_without_item_factors argsort dot g' _ _ _ "u0" 0 [1; 0]%Q);
      done. }
  assert (raises (get_cf_recommendations argsort dot "u9" k) g'
            (HTTPException 404 ("User " +:+ "u9" +:+ " not found (cold start)."))) as Hnf.
  { unfold get_cf_recommendations.
    eapply raises_bind_after; [apply returns_read|].
    eapply raises_bind_after; [apply returns_read|].
    change (CF_USER_FACTORS g') with (Some Scenario.user_factors). cbn match.
    eapply raises_bind_after; [by eapply returns_CF_MAPPERS_getitem|].
    apply raises_raise. }
  split; [right; right; left; apply read_fails_inl|].
  split; [right; right; left; apply read_fails_inl|].
  split; [exact Hkey|].
  split.
  { intros (e & He & Hf). rewrite Hkey in He. by simplify_eq/=. }
  split; [exact Herr|].
  split; [eexists; by rewrite Herr|].
  split; [eexists; by rewrite Hnf|].
  intros Hargsort.
  apply (cbf_run argsort g Scenario.similarity_matrix Scenario.item_indices
           Scenario.item_ids "item0" 0 1 [1; 8 # 10; 1 # 10]%Q); try done.
  - split; [done|]. eexists. split; [done|]. by split.
  - rewrite (argsort_cbf_scores argsort Hargsort). by repeat constructor.
Qed.

(** The skip of rank 0 is by position: on a tie for the largest similarity,
    an argsort that keeps equal values in the order of their positions puts
    item 1 at rank 0 of item 0's row, and item 0 is recommended for itself. *)
Example cbf_tie_recommends_the_item_itself :
  returns (get_cbf_recommendations argsort_merge "item0" 1)
          (load_all_artifacts Scenario.tied_files globals0).2
          ("item0", ["item0"]).
Proof. reflexivity. Qed.

(** ** The derived mapping *)

Lemma invert_users_snoc us i uid :
  invert_users (us ++ [(i, uid)]) = <[uid := i]> (invert_users us).
Proof. unfold invert_users. by rewrite foldl_snoc. Qed.

(** An id resolves to the index of its last entry. *)
Lemma invert_users_lookup_Some us uid i :
  invert_users us !! uid = Some i ↔
  ∃ us1 us2, us = us1 ++ (i, uid) :: us2 ∧ uid ∉ us2.*2.
Proof.
  induction us as [|[j v] us IH] using rev_ind.
  { unfold invert_users; simpl. rewrite lookup_empty. split; [done|].
    intros (us1 & us2 & H & _). by destruct us1. }
  rewrite invert_users_snoc, lookup_insert_Some. split.
  - intros [[-> ->]|[Hne H]].
    + exists us, []. split; [done|]. simpl. apply not_elem_of_nil.
    + apply IH in H as (us1 & us2 & -> & Hni).
      exists us1, (us2 ++ [(j, v)]). split; [by rewrite <-app_assoc|].
      rewrite fmap_app, not_elem_of_app. split; [done|].
      simpl. rewrite list_elem_of_singleton. congruence.
  - intros (us1 & us2 & Heq & Hni).
    revert Heq Hni. induction us2 as [|x us2 _] using rev_ind; intros Heq Hni.
    + apply app_inj_tail in Heq as [_ Heq]. left. by simplify_eq.
    + rewrite app_comm_cons, app_assoc in Heq.
      apply app_inj_tail in Heq as [-> <-].
      rewrite fmap_app, not_elem_of_app in Hni. destruct Hni as [Hni Hv].
      simpl in Hv. rewrite list_elem_of_singleton in Hv.
      right. split; [congruence|]. apply IH. by exists us1, us2.
Qed.

Lemma invert_users_lookup_None us uid :
  invert_users us !! uid = None ↔ uid ∉ us.*2.
Proof.
  induction us as [|[j v] us IH] using rev_ind.
  { unfold invert_users; simpl. rewrite lookup_empty. split; [|done].
    intros _. apply not_elem_of_nil. }
  rewrite invert_users_snoc, lookup_insert_None, IH, fmap_app, not_elem_of_app.
  simpl. rewrite list_elem_of_singleton. intuition congruence.
Qed.

(** ** Inversion of runs *)

Lemma bind_inr {A B} (m : py A) (f : A → py B) g b g' :
  (m ≫= f) g = (inr b, g') → ∃ a g1, m g = (inr a, g1) ∧ f a g1 = (inr b, g').
Proof.
  unfold mbind, py_mbind, py_bind. destruct (m g) as [[e|a] g1]; [done|].
  intros H. by exists a, g1.
Qed.

Lemma try_except_raise_inr {A} (m : py A) e g a g' :
  try_except m (λ _, raise e) g = (inr a, g') → m g = (inr a, g').
Proof. unfold try_except. by destruct (m g) as [[e'|a'] g1]. Qed.

Lemma try_except_raise_cases {A} (m : py A) e g :
  preserves m →
  (∃ a, m g = (inr a, g) ∧ try_except m (λ _, raise e) g = (inr a, g)) ∨
  try_except m (λ _, raise e) g = (inl e, g).
Proof.
  intros Hm. unfold try_except. specialize (Hm g).
  destruct (m g) as [[e'|a] g1]; simpl in *; subst; [by right|left; by exists a].
Qed.

Lemma or_raise_inr {A} e (o : option A) g a g' :
  or_raise e o g = (inr a, g') → o = Some a ∧ g' = g.
Proof. destruct o; [|done]. intros [= -> ->]. done. Qed.

Lemma the_inr {A} (field : globals → option A) g a g' :
  the field g = (inr a, g') → field g = Some a ∧ g' = g.
Proof.
  intros H. apply bind_inr in H as (o & g1 & [= <- <-] & H).
  by apply or_raise_inr in H.
Qed.

Lemma CF_MAPPERS_getitem_inr {A} (key : cf_mappers → option A) g a g' :
  CF_MAPPERS_getitem key g = (inr a, g') →
  ∃ mp, CF_MAPPERS g = Some mp ∧ key mp = Some a ∧ g' = g.
Proof.
  intros H. apply bind_inr in H as (mp & g1 & Hmp & H).
  apply the_inr in Hmp as [Hmp ->]. apply or_raise_inr in H as [H ->].
  by exists mp.
Qed.

Lemma CBF_MAPPERS_getitem_inr {A} (key : cbf_mappers → option A) g a g' :
  CBF_MAPPERS_getitem key g = (inr a, g') →
  ∃ mp, CBF_MAPPERS g = Some mp ∧ key mp = Some a ∧ g' = g.
Proof.
  intros H. apply bind_inr in H as (mp & g1 & Hmp & H).
  apply the_inr in Hmp as [Hmp ->]. apply or_raise_inr in H as [H ->].
  by exists mp.
Qed.

Lemma mapM_inr {A B} (f : A → py B) l g k g' :
  (∀ x, preserves (f x)) →
  mapM f l g = (inr k, g') → Forall2 (λ x y, f x g = (inr y, g)) l k ∧ g' = g.
Proof.
  intros Hf. revert k g'. induction l as [|x l IH]; intros k g'; simpl.
  { intros [= <- <-]. by split. }
  intros H. apply bind_inr in H as (y & g1 & Hy & H).
  pose proof (Hf x g) as Hg. rewrite Hy in Hg. simpl in Hg. subst g1.
  apply bind_inr in H as (k' & g1 & Hk & H).
  apply IH in Hk as [Hk ->]. injection H as <- <-.
  split; [by constructor|done].
Qed.

Lemma user_vector_dot_inr dot user_vector m g scores g' :
  user_vector_dot dot user_vector m g = (inr scores, g') →
  g' = g ∧
  ((∃ item_factors, m = Some item_factors ∧
                    dot user_vector item_factors = Some scores) ∨
   (m = None ∧ user_vector = [] ∧ scores = [])).
Proof.
  destruct m as [item_factors|]; simpl.
  - intros H. apply or_raise_inr in H as [H ->]. split; [done|]. left. eauto.
  - case_decide; [|done]. intros [= <- <-]. split; [done|]. by right.
Qed.

Lemma preserves_user_vector_dot dot user_vector m : preserves (user_vector_dot dot user_vector m).
Proof.
  destruct m; simpl; [apply preserves_or_raise|].
  case_decide; [apply preserves_ret|apply preserves_raise].
Qed.

Section EndpointInversion.

Context (argsort : list Q → list nat) (dot : list Q → ndarray → option (list Q)).

(** What a successful call of the CF endpoint went through. *)
Lemma cf_run_inv g user_id k r :
  returns (get_cf_recommendations argsort dot user_id k) g r →
  ∃ UF mp u2i user_index user_vector scores recs,
    CF_USER_FACTORS g = Some UF ∧ CF_MAPPERS g = Some mp ∧
    user_id_to_index mp = Some u2i ∧ u2i !! user_id = Some user_index ∧
    getitem_row UF user_index = Some user_vector ∧
    user_vector_dot dot user_vector (CF_ITEM_FACTORS g) g = (inr scores, g) ∧
    r = (user_id, recs) ∧
    Forall2 (λ i id, ∃ its, items mp = Some its ∧ its !! i = Some id)
            (reverse (py_slice (Some (- k)) None (argsort scores))) recs.
Proof.
  unfold returns, get_cf_recommendations. intros H.
  apply bind_inr in H as (uf & g1 & [= <- <-] & H).
  apply bind_inr in H as (mp' & g1 & [= <- <-] & H).
  destruct (CF_USER_FACTORS g) as [UF|] eqn:Huf; [|done].
  destruct (CF_MAPPERS g) as [mp|] eqn:Hmp; [|done].
  apply bind_inr in H as (u2i & g1 & Hu2i & H).
  apply CF_MAPPERS_getitem_inr in Hu2i as (mp1 & Hmp1 & Hu2i & ->).
  rewrite Hmp in Hmp1. injection Hmp1 as <-.
  destruct (u2i !! user_id) as [user_index|] eqn:Hui; [|done].
  apply try_except_raise_inr in H.
  apply bind_inr in H as (UF1 & g1 & HUF1 & H).
  apply the_inr in HUF1 as [HUF1 ->]. rewrite Huf in HUF1. injection HUF1 as <-.
  apply bind_inr in H as (uv & g1 & Huv & H).
  apply or_raise_inr in Huv as [Huv ->].
  apply bind_inr in H as (scores & g1 & Hscores & H).
  apply bind_inr in Hscores as (itf & g2 & [= <- <-] & Hscores).
  destruct (user_vector_dot_inr _ _ _ _ _ _ Hscores) as [-> _].
  apply bind_inr in H as (recs & g1 & Hrecs & H).
  apply mapM_inr in Hrecs as [Hrecs ->].
  2:{ intros i. apply preserves_bind; [apply preserves_CF_MAPPERS_getitem|].
      intros; apply preserves_or_raise. }
  injection H as <-.
  exists UF, mp, u2i, user_index, uv, scores, recs. repeat split; try done.
  eapply Forall2_impl; [exact Hrecs|]. intros i id Hi. simpl in Hi.
  apply bind_inr in Hi as (its & g1 & Hits & Hi).
  apply CF_MAPPERS_getitem_inr in Hits as (mp1 & Hmp1 & Hits & ->).
  rewrite Hmp in Hmp1. injection Hmp1 as <-.
  apply or_raise_inr in Hi as [Hi _]. by exists its.
Qed.

(** What a successful call of the CBF endpoint went through. *)
Lemma cbf_run_inv g item_id k r :
  returns (get_cbf_recommendations argsort item_id k) g r →
  ∃ SM mp id2i item_index scores recs,
    CBF_SIM_MATRIX g = Some SM ∧ CBF_MAPPERS g = Some mp ∧
    item_id_to_index mp = Some id2i ∧ id2i !! item_id = Some item_index ∧
    getitem_row SM item_index = Some scores ∧
    r = (item_id, recs) ∧
    Forall2 (λ i id, ∃ ids, index_to_item_id mp = Some ids ∧ ids !! i = Some id)
            (py_slice (Some 1) (Some (k + 1)) (reverse (argsort scores))) recs.
Proof.
  unfold returns, get_cbf_recommendations. intros H.
  apply bind_inr in H as (sm & g1 & [= <- <-] & H).
  apply bind_inr in H as (mp' & g1 & [= <- <-] & H).
  destruct (CBF_SIM_MATRIX g) as [SM|] eqn:Hsm; [|done].
  destruct (CBF_MAPPERS g) as [mp|] eqn:Hmp; [|done].
  apply bind_inr in H as (id2i & g1 & Hid2i & H).
  apply CBF_MAPPERS_getitem_inr in Hid2i as (mp1 & Hmp1 & Hid2i & ->).
  rewrite Hmp in Hmp1. injection Hmp1 as <-.
  destruct (id2i !! item_id) as [item_index|] eqn:Hii; [|done].
  apply try_except_raise_inr in H.
  apply bind_inr in H as (SM1 & g1 & HSM1 & H).
  apply the_inr in HSM1 as [HSM1 ->]. rewrite Hsm in HSM1. injection HSM1 as <-.
  apply bind_inr in H as (scores & g1 & Hscores & H).
  apply or_raise_inr in Hscores as [Hscores ->].
  apply bind_inr in H as (recs & g1 & Hrecs & H).
  apply mapM_inr in Hrecs as [Hrecs ->].
  2:{ intros i. apply preserves_bind; [apply preserves_CBF_MAPPERS_getitem|].
      intros; apply preserves_or_raise. }
  injection H as <-.
  exists SM, mp, id2i, item_index, scores, recs. repeat split; try done.
  eapply Forall2_impl; [exact Hrecs|]. intros i id Hi. simpl in Hi.
  apply bind_inr in Hi as (ids & g1 & Hids & Hi).
  apply CBF_MAPPERS_getitem_inr in Hids as (mp1 & Hmp1 & Hids & ->).
  rewrite Hmp in Hmp1. injection Hmp1 as <-.
  apply or_raise_inr in Hi as [Hi _]. by exists ids.
Qed.

End EndpointInversion.

Lemma bind_inl {A B} (m : py A) (f : A → py B) g e g' :
  (m ≫= f) g = (inl e, g') →
  m g = (inl e, g') ∨ ∃ a g1, m g = (inr a, g1) ∧ f a g1 = (inl e, g').
Proof.
  unfold mbind, py_mbind, py_bind. destruct (m g) as [[e'|a] g1].
  - intros [= -> ->]. by left.
  - intros H. right. by exists a, g1.
Qed.

Lemma try_except_raise_inl {A} (m : py A) e g e' g' :
  try_except m (λ _, raise e) g = (inl e', g') → e' = e.
Proof.
  unfold try_except. destruct (m g) as [[e1|a] g1]; [|done]. by intros [= -> _].
Qed.

Section EndpointFailures.

Context (argsort : list Q → list nat) (dot : list Q → ndarray → option (list Q)).

(** The exceptions the CF endpoint can raise, each with its cause. *)
Lemma cf_failure_inv g user_id k e :
  raises (get_cf_recommendations argsort dot user_id k) g e →
  ((CF_USER_FACTORS g = None ∨ CF_MAPPERS g = None) ∧
   e = HTTPException 500 "CF model not loaded.") ∨
  (∃ UF mp, CF_USER_FACTORS g = Some UF ∧ CF_MAPPERS g = Some mp ∧
     ((user_id_to_index mp = None ∧ e = KeyError) ∨
      ∃ u2i, user_id_to_index mp = Some u2i ∧
        ((u2i !! user_id = None ∧
          e = HTTPException 404 ("User " +:+ user_id +:+ " not found (cold start).")) ∨
         (is_Some (u2i !! user_id) ∧
          e = HTTPException 500 "Error during CF inference.")))).
Proof.
  unfold raises, get_cf_recommendations. intros H.
  apply bind_inl in H as [H|(uf & g1 & [= <- <-] & H)]; [done|].
  apply bind_inl in H as [H|(mp' & g1 & [= <- <-] & H)]; [done|].
  destruct (CF_USER_FACTORS g) as [UF|] eqn:Huf;
    [|left; split; [by left|]; by destruct (CF_MAPPERS g); injection H as <-].
  destruct (CF_MAPPERS g) as [mp|] eqn:Hmp;
    [|left; split; [by right|]; by injection H as <-].
  right. exists UF, mp. split; [done|]. split; [done|].
  apply bind_inl in H as [H|(u2i & g1 & Hu2i & H)].
  - left. unfold CF_MAPPERS_getitem in H.
    apply bind_inl in H as [H|(mp1 & g1 & Hmp1 & H)].
    { unfold the, read, mbind, py_mbind, py_bind in H. rewrite Hmp in H. done. }
    apply the_inr in Hmp1 as [Hmp1 ->]. rewrite Hmp in Hmp1. injection Hmp1 as <-.
    destruct (user_id_to_index mp); [done|]. by injection H as <-.
  - right. apply CF_MAPPERS_getitem_inr in Hu2i as (mp1 & Hmp1 & Hu2i & ->).
    rewrite Hmp in Hmp1. injection Hmp1 as <-.
    exists u2i. split; [done|].
    destruct (u2i !! user_id) as [user_index|] eqn:Hui.
    + right. split; [done|]. by eapply try_except_raise_inl.
    + left. split; [done|]. by injection H as <-.
Qed.

(** The exceptions the CBF endpoint can raise, each with its cause. *)
Lemma cbf_failure_inv g item_id k e :
  raises (get_cbf_recommendations argsort item_id k) g e →
  ((CBF_SIM_MATRIX g = None ∨ CBF_MAPPERS g = None) ∧
   e = HTTPException 500 "CBF model not loaded.") ∨
  (∃ SM mp, CBF_SIM_MATRIX g = Some SM ∧ CBF_MAPPERS g = Some mp ∧
     ((item_id_to_index mp = None ∧ e = KeyError) ∨
      ∃ id2i, item_id_to_index mp = Some id2i ∧
        ((id2i !! item_id = None ∧
          e = HTTPException 404 ("Item " +:+ item_id +:+ " not found.")) ∨
         (is_Some (id2i !! item_id) ∧
          e = HTTPException 500 "Error during CBF inference.")))).
Proof.
  unfold raises, get_cbf_recommendations. intros H.
  apply bind_inl in H as [H|(sm & g1 & [= <- <-] & H)]; [done|].
  apply bind_inl in H as [H|(mp' & g1 & [= <- <-] & H)]; [done|].
  destruct (CBF_SIM_MATRIX g) as [SM|] eqn:Hsm;
    [|left; split; [by left|]; by destruct (CBF_MAPPERS g); injection H as <-].
  destruct (CBF_MAPPERS g) as [mp|] eqn:Hmp;
    [|left; split; [by right|]; by injection H as <-].
  right. exists SM, mp. split; [done|]. split; [done|].
  apply bind_inl in H as [H|(id2i & g1 & Hid2i & H)].
  - left. unfold CBF_MAPPERS_getitem in H.
    apply bind_inl in H as [H|(mp1 & g1 & Hmp1 & H)].
    { unfold the, read, mbind, py_mbind, py_bind in H. rewrite Hmp in H. done. }
    apply the_inr in Hmp1 as [Hmp1 ->]. rewrite Hmp in Hmp1. injection Hmp1 as <-.
    destruct (item_id_to_index mp); [done|]. by injection H as <-.
  - right. apply CBF_MAPPERS_getitem_inr in Hid2i as (mp1 & Hmp1 & Hid2i & ->).
    rewrite Hmp in Hmp1. injection Hmp1 as <-.
    exists id2i. split; [done|].
    destruct (id2i !! item_id) as [item_index|] eqn:Hii.
    + right. split; [done|]. by eapply try_except_raise_inl.
    + left. split; [done|]. by injection H as <-.
Qed.

(** A run ends in [g] with a value or an exception. *)
Lemma cf_returns_or_raises g user_id k :
  (∃ r, returns (get_cf_recommendations argsort dot user_id k) g r) ∨
  (∃ e, raises (get_cf_recommendations argsort dot user_id k) g e).
Proof.
  pose proof (get_cf_recommendations_preserves argsort dot user_id k g) as Hg.
  unfold returns, raises.
  destruct (get_cf_recommendations argsort dot user_id k g) as [[e|r] g'];
    simpl in Hg; subst; eauto.
Qed.

Lemma cbf_returns_or_raises g item_id k :
  (∃ r, returns (get_cbf_recommendations argsort item_id k) g r) ∨
  (∃ e, raises (get_cbf_recommendations argsort item_id k) g e).
Proof.
  pose proof (get_cbf_recommendations_preserves argsort item_id k g) as Hg.
  unfold returns, raises.
  destruct (get_cbf_recommendations argsort item_id k g) as [[e|r] g'];
    simpl in Hg; subst; eauto.
Qed.

End EndpointFailures.

(** ** More on slices *)

Lemma slice_last_neg {A} (l : list A) (k : Z) :
  k < 0 → py_slice (Some (- k)) None l = drop (Z.to_nat (- k)) l.
Proof.
  intros Hk. unfold py_slice, slice_bound; cbn [from_option].
  rewrite decide_False by lia.
  destruct (decide (Z.to_nat (- k) ≤ length l)%nat).
  - replace (Z.to_nat (Z.min (- k) (Z.of_nat (length l)))) with (Z.to_nat (- k)) by lia.
    apply take_ge. rewrite length_drop. lia.
  - replace (Z.to_nat (Z.min (- k) (Z.of_nat (length l)))) with (length l) by lia.
    rewrite drop_all, take_nil. symmetry. apply drop_ge. lia.
Qed.

Lemma slice_last_take {A} (l : list A) (k : Z) :
  0 < k →
  reverse (py_slice (Some (- k)) None l) = take (Z.to_nat k) (reverse l).
Proof.
  intros Hk. rewrite slice_last by done. rewrite reverse_drop.
  destruct (decide (Z.to_nat k ≤ length l)%nat).
  - f_equal. lia.
  - rewrite !take_ge; [done|rewrite length_reverse; lia..].
Qed.

Lemma slice_skip_first_empty {A} (l : list A) (k : Z) :
  k = 0 ∨ k = -1 → py_slice (Some 1) (Some (k + 1)) l = [].
Proof.
  intros [-> | ->].
  - rewrite slice_skip_first by done. done.
  - unfold py_slice, slice_bound; cbn [from_option].
    repeat case_decide; try lia.
    match goal with |- take (?a - _) _ = _ => replace a with 0%nat by lia end.
    by rewrite Nat.sub_0_l.
Qed.

Lemma slice_skip_first_neg {A} (l : list A) (k : Z) :
  k < -1 →
  py_slice (Some 1) (Some (k + 1)) l
  = take (Z.to_nat (Z.of_nat (length l) + k)) (drop 1 l).
Proof.
  intros Hk. unfold py_slice, slice_bound; cbn [from_option].
  repeat case_decide; try lia.
  destruct l as [|x l].
  { cbn [length drop]. by rewrite ?drop_nil, ?take_nil. }
  cbn [length].
  replace (Z.to_nat (Z.min 1 (Z.of_nat (S (length l))))) with 1%nat by lia.
  f_equal. lia.
Qed.


Lemma slice_last_length {A} (l : list A) (k : Z) :
  0 < k → (length (py_slice (Some (- k)%Z) None l) ≤ Z.to_nat k)%nat.
Proof. intros Hk. rewrite slice_last by done. rewrite length_drop. lia. Qed.

Lemma slice_skip_first_length {A} (l : list A) (k : Z) :
  0 ≤ k → (length (py_slice (Some 1%Z) (Some (k + 1)%Z) l) ≤ Z.to_nat k)%nat.
Proof. intros Hk. rewrite slice_skip_first by done. rewrite length_take. lia. Qed.

(** ** Exact conditions of success *)


Section EndpointConditions.

Context (argsort : list Q → list nat) (dot : list Q → ndarray → option (list Q)).

Lemma cf_run_gen g UF mp u2i user_id user_index k user_vector scores recs :
  CF_USER_FACTORS g = Some UF → CF_MAPPERS g = Some mp →
  user_id_to_index mp = Some u2i → u2i !! user_id = Some user_index →
  getitem_row UF user_index = Some user_vector →
  user_vector_dot dot user_vector (CF_ITEM_FACTORS g) g = (inr scores, g) →
  Forall2 (λ i id, ∃ its, items mp = Some its ∧ its !! i = Some id)
          (reverse (py_slice (Some (- k)) None (argsort scores))) recs →
  returns (get_cf_recommendations argsort dot user_id k) g (user_id, recs).
Proof.
  intros Huf Hmp Hu2i Hui Hrow Hdot Hrecs.
  unfold get_cf_recommendations.
  eapply returns_bind; [apply returns_read|].
  eapply returns_bind; [apply returns_read|].
  rewrite Huf, Hmp.
  eapply returns_bind; [by eapply returns_CF_MAPPERS_getitem|].
  rewrite Hui. apply returns_try_except.
  eapply returns_bind; [by apply returns_the|].
  eapply returns_bind; [by apply returns_or_raise|].
  eapply returns_bind.
  { eapply returns_bind; [apply returns_read|]. exact Hdot. }
  eapply returns_bind; [|apply returns_ret].
  apply returns_mapM. eapply Forall2_impl; [exact Hrecs|].
  intros i id (its & Hits & Hi).
  eapply returns_bind; [by eapply returns_CF_MAPPERS_getitem|].
  by apply returns_or_raise.
Qed.

Lemma cbf_run_gen g SM mp id2i item_id item_index k scores recs :
  CBF_SIM_MATRIX g = Some SM → CBF_MAPPERS g = Some mp →
  item_id_to_index mp = Some id2i → id2i !! item_id = Some item_index →
  getitem_row SM item_index = Some scores →
  Forall2 (λ i id, ∃ ids, index_to_item_id mp = Some ids ∧ ids !! i = Some id)
          (py_slice (Some 1) (Some (k + 1)) (reverse (argsort scores))) recs →
  returns (get_cbf_recommendations argsort item_id k) g (item_id, recs).
Proof.
  intros Hsm Hmp Hid2i Hii Hrow Hrecs.
  unfold get_cbf_recommendations.
  eapply returns_bind; [apply returns_read|].
  eapply returns_bind; [apply returns_read|].
  rewrite Hsm, Hmp.
  eapply returns_bind; [by eapply returns_CBF_MAPPERS_getitem|].
  rewrite Hii. apply returns_try_except.
  eapply returns_bind; [by apply returns_the|].
  eapply returns_bind; [by apply returns_or_raise|].
  eapply returns_bind; [|apply returns_ret].
  apply returns_mapM. eapply Forall2_impl; [exact Hrecs|].
  intros i id (ids & Hids & Hi).
  eapply returns_bind; [by eapply returns_CBF_MAPPERS_getitem|].
  by apply returns_or_raise.
Qed.

(** A known user is answered with recommendations or with the inference
    error. *)
Lemma cf_known_user_cases g UF mp u2i user_id user_index k :
  CF_USER_FACTORS g = Some UF → CF_MAPPERS g = Some mp →
  user_id_to_index mp = Some u2i → u2i !! user_id = Some user_index →
  (∃ r, returns (get_cf_recommendations argsort dot user_id k) g r) ∨
  raises (get_cf_recommendations argsort dot user_id k) g
         (HTTPException 500 "Error during CF inference.").
Proof.
  intros Huf Hmp Hu2i Hui.
  destruct (cf_returns_or_raises argsort dot g user_id k) as [?|[e He]]; [by left|].
  right. destruct (cf_failure_inv argsort dot g user_id k e He)
    as [[[H|H] _]|(UF' & mp' & _ & Hmp' & H)]; [congruence..|].
  rewrite Hmp in Hmp'. injection Hmp' as <-.
  destruct H as [[H _]|(u2i' & Hu2i' & H)]; [congruence|].
  rewrite Hu2i in Hu2i'. injection Hu2i' as <-.
  destruct H as [[H _]|[_ ->]]; [congruence|done].
Qed.

Lemma cbf_known_item_cases g SM mp id2i item_id item_index k :
  CBF_SIM_MATRIX g = Some SM → CBF_MAPPERS g = Some mp →
  item_id_to_index mp = Some id2i → id2i !! item_id = Some item_index →
  (∃ r, returns (get_cbf_recommendations argsort item_id k) g r) ∨
  raises (get_cbf_recommendations argsort item_id k) g
         (HTTPException 500 "Error during CBF inference.").
Proof.
  intros Hsm Hmp Hid2i Hii.
  destruct (cbf_returns_or_raises argsort g item_id k) as [?|[e He]]; [by left|].
  right. destruct (cbf_failure_inv argsort g item_id k e He)
    as [[[H|H] _]|(SM' & mp' & _ & Hmp' & H)]; [congruence..|].
  rewrite Hmp in Hmp'. injection Hmp' as <-.
  destruct H as [[H _]|(id2i' & Hid2i' & H)]; [congruence|].
  rewrite Hid2i in Hid2i'. injection Hid2i' as <-.
  destruct H as [[H _]|[_ ->]]; [congruence|done].
Qed.

End EndpointConditions.

Lemma fails_with_raises {A} (m : py A) g f :
  preserves m →
  fails_with f (m g) ↔ ∃ e, raises m g e ∧ failure_of e = f.
Proof.
  intros Hm. unfold fails_with, raises. specialize (Hm g).
  destruct (m g) as [r g']. simpl in *. subst g'. split.
  - intros (e & -> & Hf). by exists e.
  - intros (e & [= ->] & Hf). by exists e.
Qed.

Lemma getitem_row_None (a : ndarray) (i : Z) :
  getitem_row a i = None ↔
  ¬ (- Z.of_nat (shape0 a) ≤ i < Z.of_nat (shape0 a)).
Proof.
  unfold getitem_row, normalize_index, shape0.
  repeat case_decide; simpl.
  - rewrite lookup_ge_None. lia.
  - rewrite lookup_ge_None. lia.
  - split; [lia|done].
Qed.

Lemma getitem_row_negative (a : ndarray) (i : Z) :
  - Z.of_nat (shape0 a) ≤ i < 0 →
  getitem_row a i = getitem_row a (i + Z.of_nat (shape0 a)).
Proof.
  intros Hi. unfold getitem_row, normalize_index.
  rewrite (decide_False (P := 0 ≤ i < _)) by lia.
  rewrite (decide_True (P := - _ ≤ i < 0)) by lia.
  rewrite (decide_True (P := 0 ≤ i + _ < _)) by lia.
  simpl. f_equal. lia.
Qed.

Section EndpointErrors.

Context (argsort : list Q → list nat) (dot : list Q → ndarray → option (list Q)).

Lemma cf_not_found_raise g UF mp u2i user_id k :
  CF_USER_FACTORS g = Some UF → CF_MAPPERS g = Some mp →
  user_id_to_index mp = Some u2i → u2i !! user_id = None →
  raises (get_cf_recommendations argsort dot user_id k) g
         (HTTPException 404 ("User " +:+ user_id +:+ " not found (cold start).")).
Proof.
  intros Huf Hmp Hu2i Hid. unfold get_cf_recommendations.
  eapply raises_bind_after; [apply returns_read|].
  eapply raises_bind_after; [apply returns_read|].
  rewrite Huf, Hmp.
  eapply raises_bind_after; [by eapply returns_CF_MAPPERS_getitem|].
  rewrite Hid. apply raises_raise.
Qed.

Lemma cbf_not_found_raise g SM mp id2i item_id k :
  CBF_SIM_MATRIX g = Some SM → CBF_MAPPERS g = Some mp →
  item_id_to_index mp = Some id2i → id2i !! item_id = None →
  raises (get_cbf_recommendations argsort item_id k) g
         (HTTPException 404 ("Item " +:+ item_id +:+ " not found.")).
Proof.
  intros Hsm Hmp Hid2i Hid. unfold get_cbf_recommendations.
  eapply raises_bind_after; [apply returns_read|].
  eapply raises_bind_after; [apply returns_read|].
  rewrite Hsm, Hmp.
  eapply raises_bind_after; [by eapply returns_CBF_MAPPERS_getitem|].
  rewrite Hid. apply raises_raise.
Qed.

Lemma cbf_key_error g SM mp item_id k :
  CBF_SIM_MATRIX g = Some SM → CBF_MAPPERS g = Some mp →
  item_id_to_index mp = None →
  raises (get_cbf_recommendations argsort item_id k) g KeyError.
Proof.
  intros Hsm Hmp Hkey. unfold get_cbf_recommendations.
  eapply raises_bind_after; [apply returns_read|].
  eapply raises_bind_after; [apply returns_read|].
  rewrite Hsm, Hmp. apply raises_bind.
  eapply raises_bind_after; [by apply returns_the|].
  rewrite Hkey. apply raises_or_raise.
Qed.

End EndpointErrors.

(** ** Further properties: the derived mapping *)

(** X1. The mapping derived by the loader knows exactly the ids listed in
    [users]; an id resolves to an index listed with it, and when an id is
    listed more than once, to the index of its last entry. *)
Theorem invert_users_resolves_last_entry us uid :
  (is_Some (invert_users us !! uid) ↔ uid ∈ us.*2) ∧
  (∀ i, invert_users us !! uid = Some i → (i, uid) ∈ us) ∧
  (∀ us1 us2 i, us = us1 ++ (i, uid) :: us2 → uid ∉ us2.*2 →
                invert_users us !! uid = Some i).
Proof.
  split; [|split].
  - rewrite <-not_eq_None_Some, invert_users_lookup_None.
    split; [|tauto]. intros H. by destruct (decide (uid ∈ us.*2)).
  - intros i H. apply invert_users_lookup_Some in H as (us1 & us2 & -> & _).
    rewrite elem_of_app. right. left.
  - intros us1 us2 i -> Hni. apply invert_users_lookup_Some. by exists us1, us2.
Qed.

(** X2. When no id is listed twice, the derived mapping is the inverse of
    [users]: an id resolves to an index exactly when [users] lists the id at
    that index. *)
Theorem invert_users_inverse us i uid :
  NoDup us.*2 →
  invert_users us !! uid = Some i ↔ (i, uid) ∈ us.
Proof.
  intros Hnd. rewrite invert_users_lookup_Some. split.
  - intros (us1 & us2 & -> & _). rewrite elem_of_app. right. left.
  - intros Hin. apply list_elem_of_split in Hin as (us1 & us2 & ->).
    exists us1, us2. split; [done|].
    rewrite fmap_app in Hnd. apply NoDup_app in Hnd as (_ & _ & Hnd).
    simpl in Hnd. by apply NoDup_cons in Hnd as [? _].
Qed.

Lemma invert_users_inverse_witness :
  invert_users [(0, "u0"); (1, "u1")] !! "u1" = Some 1.
Proof.
  apply (invert_users_inverse [(0, "u0"); (1, "u1")] 1 "u1").
  - simpl. apply NoDup_cons. split.
    + rewrite list_elem_of_singleton. discriminate.
    + apply NoDup_singleton.
  - right. left.
Defined.

(** ** Further properties: what the endpoints answer *)

(** X3. The failures of the CF endpoint and their causes.  It answers "not
    loaded" exactly when the user factors or the mapping are unset (the item
    factors are not looked at); an exception escapes it exactly when both are
    set and the mapping has no key [user_id_to_index], and it is KeyError; it
    answers 404 exactly when the key is there and does not hold the id; the
    inference error is for known ids only. *)
Theorem cf_failure_table argsort dot g user_id k :
  let run := get_cf_recommendations argsort dot user_id k g in
  (fails_with NotReady run ↔ CF_USER_FACTORS g = None ∨ CF_MAPPERS g = None) ∧
  (fails_with Unhandled run ↔
     ∃ UF mp, CF_USER_FACTORS g = Some UF ∧ CF_MAPPERS g = Some mp ∧
              user_id_to_index mp = None) ∧
  (fails_with Unhandled run → run.1 = inl KeyError) ∧
  (fails_with NotFound run ↔
     ∃ UF mp u2i, CF_USER_FACTORS g = Some UF ∧ CF_MAPPERS g = Some mp ∧
                  user_id_to_index mp = Some u2i ∧ u2i !! user_id = None) ∧
  (fails_with InternalError run →
     ∃ UF mp u2i, CF_USER_FACTORS g = Some UF ∧ CF_MAPPERS g = Some mp ∧
                  user_id_to_index mp = Some u2i ∧ is_Some (u2i !! user_id)).
Proof.
  intros run. unfold run.
  pose proof (get_cf_recommendations_preserves argsort dot user_id k) as Hp.
  rewrite !(fails_with_raises _ _ _ Hp).
  assert (Hinv := cf_failure_inv argsort dot g user_id k).
  repeat split.
  - intros (e & He & Hf).
    destruct (Hinv e He) as [[H _]|(UF & mp & _ & _ & [[_ ->]|(u2i & _ & [[_ ->]|[_ ->]])])];
      [done|done..].
  - intros H. eexists. split; [by apply cf_not_ready|done].
  - intros (e & He & Hf).
    destruct (Hinv e He) as [[_ ->]|(UF & mp & ? & ? & [[? ->]|(u2i & _ & [[_ ->]|[_ ->]])])];
      [done|by exists UF, mp|done..].
  - intros (UF & mp & ? & ? & ?). eexists. split; [by eapply cf_key_error|done].
  - intros (e & He & Hf). unfold raises in He. rewrite He. simpl. f_equal.
    destruct (Hinv e He) as [[_ ->]|(UF & mp & ? & ? & [[? ->]|(u2i & _ & [[_ ->]|[_ ->]])])];
      done.
  - intros (e & He & Hf).
    destruct (Hinv e He) as [[_ ->]|(UF & mp & ? & ? & [[? ->]|(u2i & ? & [[? ->]|[_ ->]])])];
      [done|done|by exists UF, mp, u2i|done].
  - intros (UF & mp & u2i & ? & ? & ? & ?). eexists.
    split; [by eapply cf_not_found_raise|done].
  - intros (e & He & Hf).
    destruct (Hinv e He) as [[_ ->]|(UF & mp & ? & ? & [[? ->]|(u2i & ? & [[? ->]|[? ->]])])];
      [done|done|done|by exists UF, mp, u2i].
Qed.

(** X4. The failures of the CBF endpoint and their causes, as for the CF
    endpoint, with the similarity matrix, the mapping and its key
    [item_id_to_index]. *)
Theorem cbf_failure_table argsort g item_id k :
  let run := get_cbf_recommendations argsort item_id k g in
  (fails_with NotReady run ↔ CBF_SIM_MATRIX g = None ∨ CBF_MAPPERS g = None) ∧
  (fails_with Unhandled run ↔
     ∃ SM mp, CBF_SIM_MATRIX g = Some SM ∧ CBF_MAPPERS g = Some mp ∧
              item_id_to_index mp = None) ∧
  (fails_with Unhandled run → run.1 = inl KeyError) ∧
  (fails_with NotFound run ↔
     ∃ SM mp id2i, CBF_SIM_MATRIX g = Some SM ∧ CBF_MAPPERS g = Some mp ∧
                   item_id_to_index mp = Some id2i ∧ id2i !! item_id = None) ∧
  (fails_with InternalError run →
     ∃ SM mp id2i, CBF_SIM_MATRIX g = Some SM ∧ CBF_MAPPERS g = Some mp ∧
                   item_id_to_index mp = Some id2i ∧ is_Some (id2i !! item_id)).
Proof.
  intros run. unfold run.
  pose proof (get_cbf_recommendations_preserves argsort item_id k) as Hp.
  rewrite !(fails_with_raises _ _ _ Hp).
  assert (Hinv := cbf_failure_inv argsort g item_id k).
  repeat split.
  - intros (e & He & Hf).
    destruct (Hinv e He) as [[H _]|(SM & mp & _ & _ & [[_ ->]|(id2i & _ & [[_ ->]|[_ ->]])])];
      [done|done..].
  - intros H. eexists. split; [by apply cbf_not_ready|done].
  - intros (e & He & Hf).
    destruct (Hinv e He) as [[_ ->]|(SM & mp & ? & ? & [[? ->]|(id2i & _ & [[_ ->]|[_ ->]])])];
      [done|by exists SM, mp|done..].
  - intros (SM & mp & ? & ? & ?). eexists. split; [by eapply cbf_key_error|done].
  - intros (e & He & Hf). unfold raises in He. rewrite He. simpl. f_equal.
    destruct (Hinv e He) as [[_ ->]|(SM & mp & ? & ? & [[? ->]|(id2i & _ & [[_ ->]|[_ ->]])])];
      done.
  - intros (e & He & Hf).
    destruct (Hinv e He) as [[_ ->]|(SM & mp & ? & ? & [[? ->]|(id2i & ? & [[? ->]|[_ ->]])])];
      [done|done|by exists SM, mp, id2i|done].
  - intros (SM & mp & id2i & ? & ? & ? & ?). eexists.
    split; [by eapply cbf_not_found_raise|done].
  - intros (e & He & Hf).
    destruct (Hinv e He) as [[_ ->]|(SM & mp & ? & ? & [[? ->]|(id2i & ? & [[? ->]|[? ->]])])];
      [done|done|done|by exists SM, mp, id2i].
Qed.





(** X7. What turns a call for a known user into the inference error: a
    mapped index outside the user matrix, a user row whose length is not the
    number of rows of the item matrix, or a selected position without an
    id. *)
Theorem cf_inference_error_causes argsort dot g UF mp u2i user_id user_index k :
  dot_shapes dot →
  CF_USER_FACTORS g = Some UF → CF_MAPPERS g = Some mp →
  user_id_to_index mp = Some u2i → u2i !! user_id = Some user_index →
  let error := raises (get_cf_recommendations argsort dot user_id k) g
                      (HTTPException 500 "Error during CF inference.") in
  (¬ (- Z.of_nat (shape0 UF) ≤ user_index < Z.of_nat (shape0 UF)) → error) ∧
  (∀ user_vector IF,
     getitem_row UF user_index = Some user_vector →
     CF_ITEM_FACTORS g = Some IF → length user_vector ≠ shape0 IF → error) ∧
  (∀ user_vector IF scores i,
     getitem_row UF user_index = Some user_vector →
     CF_ITEM_FACTORS g = Some IF → dot user_vector IF = Some scores →
     i ∈ reverse (py_slice (Some (- k)) None (argsort scores)) →
     (∀ its, items mp = Some its → its !! i = None) → error).
Proof.
  intros Hshapes Huf Hmp Hu2i Hui error.
  assert (Hcases := cf_known_user_cases argsort dot g UF mp u2i user_id user_index k
                      Huf Hmp Hu2i Hui).
  assert (Hinv : ∀ r, returns (get_cf_recommendations argsort dot user_id k) g r →
            ∃ uv scores recs,
              getitem_row UF user_index = Some uv ∧
              user_vector_dot dot uv (CF_ITEM_FACTORS g) g = (inr scores, g) ∧
              Forall2 (λ i id, ∃ its, items mp = Some its ∧ its !! i = Some id)
                (reverse (py_slice (Some (- k)) None (argsort scores))) recs).
  { intros r H. apply cf_run_inv in H
      as (UF' & mp' & u2i' & ui' & uv & scores & recs & ? & ? & ? & ? & ? & ? & _ & ?).
    simplify_eq. by exists uv, scores, recs. }
  destruct Hcases as [[r Hr]|Herr]; [|done].
  destruct (Hinv r Hr) as (uv & scores & recs & Hrow & Hdot & Hrecs).
  split; [|split].
  - intros Hout. apply getitem_row_None in Hout. congruence.
  - intros uv' IF Hrow' Hif Hlen. simplify_eq. rewrite Hif in Hdot. simpl in Hdot.
    by rewrite (dot_misaligned dot _ IF Hshapes Hlen) in Hdot.
  - intros uv' IF scores' i Hrow' Hif Hdot' Hi Hnone. simplify_eq.
    rewrite Hif in Hdot. simpl in Hdot. rewrite Hdot' in Hdot. simpl in Hdot.
    injection Hdot as <-.
    apply list_elem_of_lookup in Hi as [n Hn].
    destruct (Forall2_lookup_l _ _ _ _ _ Hrecs Hn) as (id & _ & its & Hits & Hid).
    by rewrite (Hnone its Hits) in Hid.
Qed.

(** X8. What turns a call for a known item into the inference error: a
    mapped index outside the similarity matrix, or a selected position without
    an id. *)
Theorem cbf_inference_error_causes argsort g SM mp id2i item_id item_index k :
  CBF_SIM_MATRIX g = Some SM → CBF_MAPPERS g = Some mp →
  item_id_to_index mp = Some id2i → id2i !! item_id = Some item_index →
  let error := raises (get_cbf_recommendations argsort item_id k) g
                      (HTTPException 500 "Error during CBF inference.") in
  (¬ (- Z.of_nat (shape0 SM) ≤ item_index < Z.of_nat (shape0 SM)) → error) ∧
  (∀ scores i,
     getitem_row SM item_index = Some scores →
     i ∈ py_slice (Some 1) (Some (k + 1)) (reverse (argsort scores)) →
     (∀ ids, index_to_item_id mp = Some ids → ids !! i = None) → error).
Proof.
  intros Hsm Hmp Hid2i Hii error.
  destruct (cbf_known_item_cases argsort g SM mp id2i item_id item_index k
              Hsm Hmp Hid2i Hii) as [[r Hr]|Herr]; [|done].
  apply cbf_run_inv in Hr
    as (SM' & mp' & id2i' & ii' & scores & recs & ? & ? & ? & ? & Hrow & _ & Hrecs).
  simplify_eq. split.
  - intros Hout. apply getitem_row_None in Hout. congruence.
  - intros scores' i Hrow' Hi Hnone. simplify_eq.
    apply list_elem_of_lookup in Hi as [n Hn].
    destruct (Forall2_lookup_l _ _ _ _ _ Hrecs Hn) as (id & _ & ids & Hids & Hid).
    by rewrite (Hnone ids Hids) in Hid.
Qed.

(** X9. Every reply of the CF endpoint, whatever the globals hold and however
    argsort orders, names the user asked for and lists ids taken from the key
    [items] of the mapping; for a positive [k] it lists at most [k] of
    them. *)
Theorem cf_reply_shape argsort dot g user_id k r :
  returns (get_cf_recommendations argsort dot user_id k) g r →
  r.1 = user_id ∧
  (0 < k → (length r.2 ≤ Z.to_nat k)%nat) ∧
  ∃ mp, CF_MAPPERS g = Some mp ∧
        Forall (λ id, ∃ its i, items mp = Some its ∧ its !! i = Some id) r.2.
Proof.
  intros H. apply cf_run_inv in H
    as (UF & mp & u2i & ui & uv & scores & recs & _ & Hmp & _ & _ & _ & _ & -> & Hrecs).
  simpl. split; [done|]. split.
  - intros Hk. rewrite <-(Forall2_length _ _ _ Hrecs), length_reverse.
    by apply slice_last_length.
  - exists mp. split; [done|].
    induction Hrecs as [|i id idxs recs (its & ? & ?) _ IH]; constructor; eauto.
Qed.

Lemma cf_reply_shape_witness :
  (length ["item0"; "item2"] ≤ Z.to_nat 2)%nat.
Proof.
  exact (proj1 (proj2 (cf_reply_shape argsort_merge exact_dot Scenario.loaded "u0" 2
                         ("u0", ["item0"; "item2"]) eq_refl)) eq_refl).
Defined.

(** X10. Every reply of the CBF endpoint names the item asked for and lists
    ids taken from the key [index_to_item_id] of the mapping; for a [k] that
    is not negative it lists at most [k] of them. *)
Theorem cbf_reply_shape argsort g item_id k r :
  returns (get_cbf_recommendations argsort item_id k) g r →
  r.1 = item_id ∧
  (0 ≤ k → (length r.2 ≤ Z.to_nat k)%nat) ∧
  ∃ mp, CBF_MAPPERS g = Some mp ∧
        Forall (λ id, ∃ ids i, index_to_item_id mp = Some ids ∧ ids !! i = Some id) r.2.
Proof.
  intros H. apply cbf_run_inv in H
    as (SM & mp & id2i & ii & scores & recs & _ & Hmp & _ & _ & _ & -> & Hrecs).
  simpl. split; [done|]. split.
  - intros Hk. rewrite <-(Forall2_length _ _ _ Hrecs).
    by apply slice_skip_first_length.
  - exists mp. split; [done|].
    induction Hrecs as [|i id idxs recs (ids & ? & ?) _ IH]; constructor; eauto.
Qed.

Lemma cbf_reply_shape_witness :
  (length ["item1"] ≤ Z.to_nat 1)%nat.
Proof.
  exact (proj1 (proj2 (cbf_reply_shape argsort_merge Scenario.loaded "item0" 1
                         ("item0", ["item1"]) eq_refl)) ltac:(done)).
Defined.

Lemma cf_inference_error_causes_witness :
  raises (get_cf_recommendations argsort_merge exact_dot "u7" 2) Scenario.stale_loaded
         (HTTPException 500 "Error during CF inference.").
Proof.
  apply (proj1 (cf_inference_error_causes argsort_merge exact_dot Scenario.stale_loaded
                  Scenario.user_factors _ _ "u7" 7 2
                  exact_dot_shapes eq_refl eq_refl eq_refl eq_refl)).
  unfold shape0; simpl; lia.
Defined.

Lemma cbf_inference_error_causes_witness :
  raises (get_cbf_recommendations argsort_merge "item9" 1) Scenario.stale_loaded
         (HTTPException 500 "Error during CBF inference.").
Proof.
  apply (proj1 (cbf_inference_error_causes argsort_merge Scenario.stale_loaded
                  Scenario.similarity_matrix _ _ "item9" 9 1
                  eq_refl eq_refl eq_refl eq_refl)).
  unfold shape0; simpl; lia.
Defined.

(** ** Further properties: [k] outside the contract *)

(** X11. With a negative [k] the CF endpoint does not fail: it leaves out the
    [-k] lowest-scoring items and returns the other [num_items + k] (none
    when [-k] is at least [num_items]), in non-increasing order of the scores
    that numpy's dot gives the user's row and the item matrix. *)
Theorem cf_recommend_negative_k argsort dot g UF IF u2i its user_id user_index k :
  argsort_spec argsort →
  dot_shapes dot →
  cf_bundle g UF IF u2i its →
  cf_invariant UF IF u2i its →
  u2i !! user_id = Some user_index →
  k < 0 →
  ∃ user_vector scores recs,
    let idxs := reverse (drop (Z.to_nat (- k)) (argsort scores)) in
    rows UF !! Z.to_nat user_index = Some user_vector ∧
    dot user_vector IF = Some scores ∧
    returns (get_cf_recommendations argsort dot user_id k) g (user_id, recs) ∧
    ids_of its idxs recs ∧
    length recs = (shape1 IF - Z.to_nat (- k))%nat ∧
    NoDup idxs ∧
    descending scores idxs ∧
    (∀ i j, i ∈ idxs → (j < shape1 IF)%nat → j ∉ idxs → score_le scores j i).
Proof.
  intros Hargsort Hshapes Hg Hinv Hui Hk.
  destruct (cf_scores dot Hshapes UF IF u2i its user_id user_index Hinv Hui)
    as (uv & scores & Huv & Hdot & Hlen).
  set (n := Z.to_nat (- k)).
  set (idxs := reverse (drop n (argsort scores))).
  destruct (ids_of_exists its idxs) as [recs Hrecs].
  { intros i Hi. apply (cf_item_ids _ _ _ _ Hinv). rewrite <-Hlen.
    by eapply top_k_bound. }
  exists uv, scores, recs. simpl. fold n. fold idxs. repeat split; try done.
  - by rewrite <-(cf_user_row UF IF u2i its user_id user_index Hinv Hui).
  - eapply cf_run; try done. by rewrite slice_last_neg.
  - rewrite (ids_of_length _ _ _ Hrecs). unfold idxs.
    by rewrite (top_k_length argsort Hargsort), Hlen.
  - by apply top_k_NoDup.
  - by apply top_k_descending.
  - intros i j Hi Hj Hnj. apply (top_k_highest argsort Hargsort scores n); try done.
    by rewrite Hlen.
Qed.

Lemma cf_recommend_negative_k_witness :
  rows Scenario.user_factors !! 0%nat = Some [1; 0]%Q ∧
  exact_dot [1; 0]%Q Scenario.item_factors = Some [2; 0; 1]%Q ∧
  returns (get_cf_recommendations argsort_merge exact_dot "u0" (-1)) Scenario.loaded
          ("u0", ["item0"; "item2"]) ∧
  ids_of Scenario.item_ids [0; 2]%nat ["item0"; "item2"].
Proof.
  destruct (cf_recommend_negative_k argsort_merge exact_dot Scenario.loaded
              Scenario.user_factors Scenario.item_factors
              Scenario.user_indices Scenario.item_ids "u0" 0 (-1)
              argsort_merge_spec exact_dot_shapes
              ScenarioFacts.loaded_cf_bundle ScenarioFacts.loaded_cf_invariant
              eq_refl eq_refl)
    as (uv & scores & recs & Hrow & Hdot & Hrun & Hids & _).
  assert (uv = [1; 0]%Q) as -> by (simpl in Hrow; congruence).
  assert (scores = [2; 0; 1]%Q) as -> by (vm_compute in Hdot; congruence).
  assert (returns (get_cf_recommendations argsort_merge exact_dot "u0" (-1))
                  Scenario.loaded ("u0", ["item0"; "item2"])) as Hc by reflexivity.
  assert (recs = ["item0"; "item2"]) as ->.
  { unfold returns in Hrun, Hc. rewrite Hc in Hrun. by injection Hrun. }
  split; [exact Hrow|]. split; [reflexivity|]. split; [exact Hc|]. exact Hids.
Defined.

(** X12. With [k = 0] or [k = -1] the CBF endpoint answers a known item whose
    row exists with the empty list, a reply and not an error, whether or not
    the mapping holds any id (contrast the CF endpoint, which returns every
    item for [k = 0]). *)
Theorem cbf_recommend_k_0_or_minus_1 argsort g SM mp id2i item_id item_index k :
  CBF_SIM_MATRIX g = Some SM → CBF_MAPPERS g = Some mp →
  item_id_to_index mp = Some id2i → id2i !! item_id = Some item_index →
  - Z.of_nat (shape0 SM) ≤ item_index < Z.of_nat (shape0 SM) →
  k = 0 ∨ k = -1 →
  returns (get_cbf_recommendations argsort item_id k) g (item_id, []).
Proof.
  intros Hsm Hmp Hid2i Hii Hrange Hk.
  destruct (getitem_row SM item_index) as [scores|] eqn:Hrow.
  2:{ apply getitem_row_None in Hrow. done. }
  eapply cbf_run_gen; try done.
  rewrite slice_skip_first_empty by done. constructor.
Qed.

Lemma cbf_recommend_k_0_or_minus_1_witness :
  returns (get_cbf_recommendations argsort_merge "item0" 0) Scenario.stale_loaded
          ("item0", []).
Proof.
  apply (cbf_recommend_k_0_or_minus_1 argsort_merge Scenario.stale_loaded
           Scenario.similarity_matrix _ _ "item0" 0 0
           eq_refl eq_refl eq_refl eq_refl).
  - unfold shape0; simpl; lia.
  - by left.
Defined.

(** X13. With [k < -1] the CBF endpoint does not fail either: the stop
    [k + 1] counts from the end, so it skips rank 0 and the last [-k - 1]
    ranks of the descending order of the item's row of the similarity matrix
    and returns the [num_items + k] in between (none when that is not
    positive). *)
Theorem cbf_recommend_negative_k argsort g SM id2i ids item_id item_index k :
  argsort_spec argsort →
  cbf_bundle g SM id2i ids →
  cbf_invariant SM id2i ids →
  id2i !! item_id = Some item_index →
  k < -1 →
  ∃ scores recs,
    let idxs := take (Z.to_nat (Z.of_nat (shape1 SM) + k))
                     (drop 1 (reverse (argsort scores))) in
    rows SM !! Z.to_nat item_index = Some scores ∧
    returns (get_cbf_recommendations argsort item_id k) g (item_id, recs) ∧
    ids_of ids idxs recs ∧
    descending scores idxs ∧
    length recs = Z.to_nat (Z.of_nat (shape1 SM) + k).
Proof.
  intros Hargsort Hg Hinv Hii Hk.
  destruct (cbf_scores SM id2i ids item_id item_index Hinv Hii)
    as (scores & Hrow & Hlen).
  set (ranked := reverse (argsort scores)).
  assert (Hperm : ranked ≡ₚ seq 0 (shape1 SM)).
  { rewrite <-Hlen. by apply ranked_Permutation. }
  set (idxs := take (Z.to_nat (Z.of_nat (shape1 SM) + k)) (drop 1 ranked)).
  destruct (ids_of_exists ids idxs) as [recs Hrecs].
  { intros i Hi. apply (cbf_item_ids _ _ _ Hinv).
    assert (i ∈ ranked) as Hr.
    { eapply elem_of_sublist; [exact Hi|].
      etrans; [apply sublist_take|apply sublist_drop]. }
    rewrite Hperm, elem_of_seq in Hr. lia. }
  exists scores, recs. simpl. fold ranked. fold idxs. repeat split; try done.
  - by rewrite <-(cbf_item_row SM id2i ids item_id item_index Hinv Hii).
  - eapply cbf_run; try done. rewrite slice_skip_first_neg by done.
    fold ranked. rewrite (Permutation_length Hperm), length_seq. exact Hrecs.
  - apply descending_take, descending_drop. by apply argsort_descending.
  - rewrite (ids_of_length _ _ _ Hrecs). unfold idxs.
    rewrite length_take, length_drop, (Permutation_length Hperm), length_seq.
    lia.
Qed.

Lemma cbf_recommend_negative_k_witness :
  rows Scenario.similarity_matrix !! 0%nat = Some [1; 8 # 10; 1 # 10]%Q ∧
  returns (get_cbf_recommendations argsort_merge "item0" (-2)) Scenario.loaded
          ("item0", ["item1"]) ∧
  ids_of Scenario.item_ids [1]%nat ["item1"].
Proof.
  destruct (cbf_recommend_negative_k argsort_merge Scenario.loaded
              Scenario.similarity_matrix Scenario.item_indices Scenario.item_ids
              "item0" 0 (-2)
              argsort_merge_spec
              ScenarioFacts.loaded_cbf_bundle ScenarioFacts.loaded_cbf_invariant
              eq_refl eq_refl)
    as (scores & recs & Hrow & Hrun & Hids & _).
  assert (scores = [1; 8 # 10; 1 # 10]%Q) as -> by (simpl in Hrow; congruence).
  assert (returns (get_cbf_recommendations argsort_merge "item0" (-2))
                  Scenario.loaded ("item0", ["item1"])) as Hc by reflexivity.
  assert (recs = ["item1"]) as ->.
  { unfold returns in Hrun, Hc. rewrite Hc in Hrun. by injection Hrun. }
  split; [exact Hrow|]. split; [exact Hc|]. exact Hids.
Defined.

(** ** Further properties: ranking *)




(** X15. A negative index in the user mapping is not an error: Python counts
    it from the end of the user matrix, so the user mapped to [i - num_users]
    is answered exactly like the user mapped to [i], with the recommendations
    computed from that row. *)
Theorem cf_negative_index_counts_from_the_end
    argsort dot g UF mp u2i user_a user_b index_a k recs :
  CF_USER_FACTORS g = Some UF → CF_MAPPERS g = Some mp →
  user_id_to_index mp = Some u2i →
  u2i !! user_a = Some index_a →
  u2i !! user_b = Some (index_a + Z.of_nat (shape0 UF)) →
  - Z.of_nat (shape0 UF) ≤ index_a < 0 →
  returns (get_cf_recommendations argsort dot user_a k) g (user_a, recs) ↔
  returns (get_cf_recommendations argsort dot user_b k) g (user_b, recs).
Proof.
  intros Huf Hmp Hu2i Ha Hb Hrange.
  pose proof (getitem_row_negative UF index_a Hrange) as Hrow.
  split; intros H; apply cf_run_inv in H
    as (UF' & mp' & u2i' & ui' & uv & scores & recs' & ? & ? & ? & ? & Huv & ? & ? & ?);
    simplify_eq; eapply cf_run_gen; try done; congruence.
Qed.

Lemma cf_negative_index_counts_from_the_end_witness :
  returns (get_cf_recommendations argsort_merge exact_dot "u1" 2) Scenario.stale_loaded
          ("u1", ["item1"; "item2"]).
Proof.
  apply (cf_negative_index_counts_from_the_end argsort_merge exact_dot Scenario.stale_loaded
           Scenario.user_factors _ _ "last" "u1" (-1) 2 ["item1"; "item2"]
           eq_refl eq_refl eq_refl eq_refl eq_refl).
  - unfold shape0; simpl; lia.
  - reflexivity.
Defined.

(** X16. The replies of the CF endpoint for different [k] agree: what it
    returns for a positive [k] is the first [k] entries of what it returns
    for a larger [k], or for [k = 0], which lists every item. *)
Theorem cf_smaller_k_is_a_prefix argsort dot g user_id k k' recs :
  0 < k → k ≤ k' ∨ k' = 0 →
  returns (get_cf_recommendations argsort dot user_id k') g (user_id, recs) →
  returns (get_cf_recommendations argsort dot user_id k) g
          (user_id, take (Z.to_nat k) recs).
Proof.
  intros Hk Hk' H. apply cf_run_inv in H
    as (UF & mp & u2i & ui & uv & scores & recs' & ? & ? & ? & ? & ? & ? & ? & Hrecs).
  simplify_eq. eapply cf_run_gen; try done.
  rewrite slice_last_take by done.
  assert (reverse (py_slice (Some (- k')) None (argsort scores))
          = take (if decide (k' = 0) then length (argsort scores) else Z.to_nat k')
                 (reverse (argsort scores))) as Heq.
  { case_decide as Hzero.
    - subst k'. rewrite slice_last_zero. symmetry. apply take_ge.
      by rewrite length_reverse.
    - apply slice_last_take. lia. }
  rewrite Heq in Hrecs. apply (Forall2_take _ _ _ (Z.to_nat k)) in Hrecs.
  rewrite take_take in Hrecs.
  case_decide as Hzero.
  - destruct (decide (Z.to_nat k ≤ length (argsort scores))%nat).
    + by rewrite Nat.min_l in Hrecs.
    + rewrite Nat.min_r in Hrecs by lia.
      rewrite take_ge; [|rewrite length_reverse; lia].
      by rewrite take_ge in Hrecs by (rewrite length_reverse; lia).
  - by rewrite Nat.min_l in Hrecs by lia.
Qed.

Lemma cf_smaller_k_is_a_prefix_witness :
  returns (get_cf_recommendations argsort_merge exact_dot "u0" 2) Scenario.loaded
          ("u0", take (Z.to_nat 2) ["item0"; "item2"; "item1"]).
Proof.
  apply (cf_smaller_k_is_a_prefix argsort_merge exact_dot Scenario.loaded "u0" 2 0
           ["item0"; "item2"; "item1"]).
  - done.
  - by right.
  - reflexivity.
Defined.

(** X17. The replies of the CBF endpoint for different [k] agree: what it
    returns for [k] is the first [k] entries of what it returns for a larger
    [k]. *)
Theorem cbf_smaller_k_is_a_prefix argsort g item_id k k' recs :
  0 ≤ k → k ≤ k' →
  returns (get_cbf_recommendations argsort item_id k') g (item_id, recs) →
  returns (get_cbf_recommendations argsort item_id k) g
          (item_id, take (Z.to_nat k) recs).
Proof.
  intros Hk Hk' H. apply cbf_run_inv in H
    as (SM & mp & id2i & ii & scores & recs' & ? & ? & ? & ? & ? & ? & Hrecs).
  simplify_eq. eapply cbf_run_gen; try done.
  rewrite slice_skip_first in Hrecs |- * by lia.
  apply (Forall2_take _ _ _ (Z.to_nat k)) in Hrecs.
  rewrite take_take in Hrecs.
  by replace (Z.to_nat k `min` Z.to_nat k')%nat with (Z.to_nat k) in Hrecs by lia.
Qed.

Lemma cbf_smaller_k_is_a_prefix_witness :
  returns (get_cbf_recommendations argsort_merge "item0" 1) Scenario.loaded
          ("item0", take (Z.to_nat 1) ["item1"; "item2"]).
Proof.
  apply (cbf_smaller_k_is_a_prefix argsort_merge Scenario.loaded "item0" 1 2
           ["item1"; "item2"]).
  - done.
  - done.
  - reflexivity.
Defined.

(** ** Further properties: loading *)

Section ReadinessFacts.

Context (argsort : list Q → list nat) (dot : list Q → ndarray → option (list Q)).

Lemma cf_not_ready_iff g user_id k :
  fails_with NotReady (get_cf_recommendations argsort dot user_id k g) ↔
  CF_USER_FACTORS g = None ∨ CF_MAPPERS g = None.
Proof.
  rewrite (fails_with_raises _ _ _ (get_cf_recommendations_preserves argsort dot user_id k)).
  split.
  - intros (e & He & Hf).
    by destruct (cf_failure_inv argsort dot g user_id k e He)
      as [[H _]|(UF & mp & _ & _ & [[_ ->]|(u2i & _ & [[_ ->]|[_ ->]])])].
  - intros H. eexists. split; [by apply cf_not_ready|done].
Qed.

Lemma cbf_not_ready_iff g item_id k :
  fails_with NotReady (get_cbf_recommendations argsort item_id k g) ↔
  CBF_SIM_MATRIX g = None ∨ CBF_MAPPERS g = None.
Proof.
  rewrite (fails_with_raises _ _ _ (get_cbf_recommendations_preserves argsort item_id k)).
  split.
  - intros (e & He & Hf).
    by destruct (cbf_failure_inv argsort g item_id k e He)
      as [[H _]|(SM & mp & _ & _ & [[_ ->]|(id2i & _ & [[_ ->]|[_ ->]])])].
  - intros H. eexists. split; [by apply cbf_not_ready|done].
Qed.

Lemma cf_ready_failure g UF mp u2i user_id k f :
  CF_USER_FACTORS g = Some UF → CF_MAPPERS g = Some mp →
  user_id_to_index mp = Some u2i →
  fails_with f (get_cf_recommendations argsort dot user_id k g) →
  (f = NotFound ∧ u2i !! user_id = None) ∨
  (f = InternalError ∧ is_Some (u2i !! user_id)).
Proof.
  intros Huf Hmp Hu2i.
  rewrite (fails_with_raises _ _ _ (get_cf_recommendations_preserves argsort dot user_id k)).
  intros (e & He & <-).
  destruct (cf_failure_inv argsort dot g user_id k e He)
    as [[[H|H] _]|(UF' & mp' & _ & Hmp' & H)]; [congruence..|].
  rewrite Hmp in Hmp'. injection Hmp' as <-.
  destruct H as [[H _]|(u2i' & Hu2i' & H)]; [congruence|].
  rewrite Hu2i in Hu2i'. injection Hu2i' as <-.
  destruct H as [[H ->]|[H ->]]; [by left|by right].
Qed.

End ReadinessFacts.

(** The CF globals after a load in which every step succeeds. *)
Lemma load_cf_success fs g m us UF IF :
  mappers_pkl fs = inr m → users m = Some us →
  user_factors_npy fs = inr UF → item_factors_npy fs = inr IF →
  let g' := (load_all_artifacts fs g).2 in
  CF_USER_FACTORS g' = Some UF ∧ CF_ITEM_FACTORS g' = Some IF ∧
  CF_MAPPERS g' = Some (CfMappers (users m) (items m) (Some (invert_users us))).
Proof.
  destruct fs as [pm puf pif pcm psm]; simpl. intros -> Hus -> ->.
  destruct m as [mu mi mk]; simpl in *. subst mu.
  destruct pcm as [?|?], psm as [?|?]; done.
Qed.

(** X18. The loader never unsets a global.  Run on globals that already hold
    a model, it leaves each of them as it was or assigns it the content just
    read from its file; a failed read keeps the earlier value. *)
Theorem load_never_unsets fs g :
  let g' := (load_all_artifacts fs g).2 in
  (CF_USER_FACTORS g' = CF_USER_FACTORS g ∨
   ∃ a, user_factors_npy fs = inr a ∧ CF_USER_FACTORS g' = Some a) ∧
  (CF_ITEM_FACTORS g' = CF_ITEM_FACTORS g ∨
   ∃ a, item_factors_npy fs = inr a ∧ CF_ITEM_FACTORS g' = Some a) ∧
  (CF_MAPPERS g' = CF_MAPPERS g ∨
   ∃ m mp, mappers_pkl fs = inr m ∧ CF_MAPPERS g' = Some mp ∧
           users mp = users m ∧ items mp = items m) ∧
  (CBF_SIM_MATRIX g' = CBF_SIM_MATRIX g ∨
   ∃ a, cbf_similarity_matrix_npy fs = inr a ∧ CBF_SIM_MATRIX g' = Some a) ∧
  (CBF_MAPPERS g' = CBF_MAPPERS g ∨
   ∃ m, cbf_mappers_pkl fs = inr m ∧ CBF_MAPPERS g' = Some m).
Proof.
  load_cases fs; repeat split; eauto 8.
Qed.

(** X19. Loading twice from the same files leaves the globals as loading
    once. *)
Theorem load_twice_is_load_once fs g :
  load_all_artifacts fs (load_all_artifacts fs g).2 = load_all_artifacts fs g.
Proof. load_cases fs; done. Qed.

(** X20. The two bundles load independently: the CF globals after a load are
    decided by the three CF files and the CF globals before it, the CBF
    globals by the two CBF files and the CBF globals before it. *)
Theorem load_bundles_are_independent fs1 fs2 g1 g2 :
  let g1' := (load_all_artifacts fs1 g1).2 in
  let g2' := (load_all_artifacts fs2 g2).2 in
  (mappers_pkl fs1 = mappers_pkl fs2 →
   user_factors_npy fs1 = user_factors_npy fs2 →
   item_factors_npy fs1 = item_factors_npy fs2 →
   CF_USER_FACTORS g1 = CF_USER_FACTORS g2 →
   CF_ITEM_FACTORS g1 = CF_ITEM_FACTORS g2 →
   CF_MAPPERS g1 = CF_MAPPERS g2 →
   CF_USER_FACTORS g1' = CF_USER_FACTORS g2' ∧
   CF_ITEM_FACTORS g1' = CF_ITEM_FACTORS g2' ∧
   CF_MAPPERS g1' = CF_MAPPERS g2') ∧
  (cbf_mappers_pkl fs1 = cbf_mappers_pkl fs2 →
   cbf_similarity_matrix_npy fs1 = cbf_similarity_matrix_npy fs2 →
   CBF_SIM_MATRIX g1 = CBF_SIM_MATRIX g2 →
   CBF_MAPPERS g1 = CBF_MAPPERS g2 →
   CBF_SIM_MATRIX g1' = CBF_SIM_MATRIX g2' ∧
   CBF_MAPPERS g1' = CBF_MAPPERS g2').
Proof.
  split.
  - load_cases fs1; load_cases fs2; intros; simplify_eq; done.
  - load_cases fs1; load_cases fs2; intros; simplify_eq; done.
Qed.

(** X21. After a load in which the three CF reads succeed and the pickle has
    the key [users], the CF endpoint knows exactly the ids listed there: it
    answers 404 for the ids that [users] does not list and for no other, and
    never "not loaded" or with an escaping exception, whatever the pickle
    held under [user_id_to_index]. *)
Theorem loaded_users_are_the_known_users argsort dot fs g m us UF IF user_id k :
  mappers_pkl fs = inr m → users m = Some us →
  user_factors_npy fs = inr UF → item_factors_npy fs = inr IF →
  let run := get_cf_recommendations argsort dot user_id k (load_all_artifacts fs g).2 in
  (fails_with NotFound run ↔ user_id ∉ us.*2) ∧
  ¬ fails_with NotReady run ∧ ¬ fails_with Unhandled run.
Proof.
  intros Hm Hus Huf Hif run.
  destruct (load_cf_success fs g m us UF IF Hm Hus Huf Hif) as (Hguf & _ & Hgmp).
  assert (∀ f, fails_with f run →
            (f = NotFound ∧ invert_users us !! user_id = None) ∨
            (f = InternalError ∧ is_Some (invert_users us !! user_id))) as Hkinds.
  { intros f. by eapply cf_ready_failure. }
  split; [split|split].
  - intros H. apply Hkinds in H as [[_ H]|[? _]]; [|done].
    by apply invert_users_lookup_None.
  - intros H. apply invert_users_lookup_None in H.
    apply (fails_with_raises _ _ _ (get_cf_recommendations_preserves argsort dot user_id k)).
    eexists. split; [by eapply cf_not_found_raise|done].
  - intros H. by apply Hkinds in H as [[? _]|[? _]].
  - intros H. by apply Hkinds in H as [[? _]|[? _]].
Qed.

Lemma loaded_users_are_the_known_users_witness :
  fails_with NotFound (get_cf_recommendations argsort_merge exact_dot "u9" 2 Scenario.loaded).
Proof.
  apply (proj1 (loaded_users_are_the_known_users argsort_merge exact_dot Scenario.files
                  globals0 _ [(0, "u0"); (1, "u1")] Scenario.user_factors
                  Scenario.item_factors "u9" 2 eq_refl eq_refl eq_refl eq_refl)).
  simpl. rewrite !elem_of_cons. intros [H|[H|H]]; [done|done|].
  by apply elem_of_nil in H.
Defined.

(** X22. After the loader has run at start-up, the CBF endpoint answers "not
    loaded" exactly when the load of the CBF bundle failed, and the CF
    endpoint exactly when its mapping file or its user factors could not be
    read. *)
Theorem not_loaded_after_failed_load argsort dot fs id k :
  let g := (load_all_artifacts fs globals0).2 in
  (fails_with NotReady (get_cbf_recommendations argsort id k g) ↔
     cbf_load_fails fs) ∧
  (fails_with NotReady (get_cf_recommendations argsort dot id k g) ↔
     read_fails (mappers_pkl fs) ∨ read_fails (user_factors_npy fs)).
Proof.
  intros g. unfold g. rewrite cbf_not_ready_iff, cf_not_ready_iff.
  destruct (load_all_artifacts_fields fs) as (_ & Hmp & Huf & _ & Hcmp & Hsm).
  unfold cbf_load_fails. rewrite Hmp, Huf, Hcmp, Hsm. tauto.
Qed.

(** X23. Loading and serving compose: after a load in which the three CF
    reads succeed, with matrices and mappings that agree in shape and item ids
    that differ between positions, every user id listed under [users] gets,
    for a positive [k], [min k num_items] recommendations without repetition:
    the ids of the first [k] positions of the descending order of the scores
    that numpy's dot gives the row of the user's index and the item matrix. *)
Theorem loaded_model_serves_listed_users
    argsort dot fs g m us its UF IF user_id k :
  argsort_spec argsort →
  dot_shapes dot →
  mappers_pkl fs = inr m → users m = Some us → items m = Some its →
  user_factors_npy fs = inr UF → item_factors_npy fs = inr IF →
  cf_invariant UF IF (invert_users us) its →
  ids_injective its →
  user_id ∈ us.*2 →
  0 < k →
  ∃ user_index user_vector scores recs,
    let idxs := take (Z.to_nat k) (reverse (argsort scores)) in
    invert_users us !! user_id = Some user_index ∧
    (user_index, user_id) ∈ us ∧
    rows UF !! Z.to_nat user_index = Some user_vector ∧
    dot user_vector IF = Some scores ∧
    returns (get_cf_recommendations argsort dot user_id k)
            (load_all_artifacts fs g).2 (user_id, recs) ∧
    ids_of its idxs recs ∧
    length recs = Nat.min (Z.to_nat k) (shape1 IF) ∧
    NoDup recs ∧
    descending scores idxs.
Proof.
  intros Hargsort Hshapes Hm Hus Hits Huf Hif Hinv Hinj Hlisted Hk.
  destruct (load_cf_success fs g m us UF IF Hm Hus Huf Hif) as (Hguf & Hgif & Hgmp).
  assert (cf_bundle (load_all_artifacts fs g).2 UF IF (invert_users us) its) as Hg.
  { split; [done..|]. eexists. split; [exact Hgmp|]. by split. }
  destruct (invert_users us !! user_id) as [ui|] eqn:Hui.
  2:{ by apply invert_users_lookup_None in Hui. }
  destruct (cf_scores dot Hshapes UF IF _ its user_id ui Hinv Hui)
    as (uv & scores & Huv & Hdot & Hlen).
  set (n := (length scores - Z.to_nat k)%nat).
  assert (Htake : take (Z.to_nat k) (reverse (argsort scores))
                  = reverse (drop n (argsort scores))).
  { by rewrite take_reverse, (argsort_length argsort Hargsort). }
  exists ui, uv, scores. simpl. rewrite Htake.
  set (idxs := reverse (drop n (argsort scores))).
  destruct (ids_of_exists its idxs) as [recs Hrecs].
  { intros i Hi. apply (cf_item_ids _ _ _ _ Hinv). rewrite <-Hlen.
    by eapply top_k_bound. }
  exists recs. repeat split; try done.
  - apply invert_users_lookup_Some in Hui as (us1 & us2 & -> & _).
    rewrite elem_of_app. right. left.
  - by rewrite <-(cf_user_row UF IF _ its user_id ui Hinv Hui).
  - eapply cf_run; try done. rewrite slice_last by done.
    by rewrite (argsort_length argsort Hargsort).
  - rewrite (ids_of_length _ _ _ Hrecs). unfold idxs.
    rewrite (top_k_length argsort Hargsort). lia.
  - eapply ids_of_NoDup; [done|done|]. by apply top_k_NoDup.
  - by apply top_k_descending.
Qed.

Lemma loaded_model_serves_listed_users_witness :
  rows Scenario.user_factors !! 1%nat = Some [0; 1]%Q ∧
  exact_dot [0; 1]%Q Scenario.item_factors = Some [0; 3; 1]%Q ∧
  returns (get_cf_recommendations argsort_merge exact_dot "u1" 2) Scenario.loaded
          ("u1", ["item1"; "item2"]) ∧
  ids_of Scenario.item_ids [1; 2]%nat ["item1"; "item2"].
Proof.
  destruct (loaded_model_serves_listed_users argsort_merge exact_dot
              Scenario.files globals0
              _ [(0, "u0"); (1, "u1")] Scenario.item_ids
              Scenario.user_factors Scenario.item_factors "u1" 2
              argsort_merge_spec exact_dot_shapes
              eq_refl eq_refl eq_refl eq_refl eq_refl
              ScenarioFacts.loaded_cf_invariant ScenarioFacts.item_ids_injective)
    as (ui & uv & scores & recs & Hui & _ & Hrow & Hdot & Hrun & Hids & _).
  - simpl. right. left.
  - done.
  - assert (ui = 1) as -> by (vm_compute in Hui; congruence).
    assert (uv = [0; 1]%Q) as -> by (simpl in Hrow; congruence).
    assert (scores = [0; 3; 1]%Q) as -> by (vm_compute in Hdot; congruence).
    assert (returns (get_cf_recommendations argsort_merge exact_dot "u1" 2)
                    Scenario.loaded ("u1", ["item1"; "item2"])) as Hc by reflexivity.
    assert (recs = ["item1"; "item2"]) as ->.
    { unfold returns in Hrun, Hc. change (load_all_artifacts Scenario.files globals0).2
        with Scenario.loaded in Hrun. rewrite Hc in Hrun. by injection Hrun. }
    split; [exact Hrow|]. split; [reflexivity|]. split; [exact Hc|]. exact Hids.
Defined.
